(** * The write path of the content-addressable store (store/cafs)

    A shallow embedding of [store/cafs/src/writeBufferToCafs.ts] and the
    properties its specification states about it.

    Layout:
    - [Path]   Node's [path.join], [path.basename] and [path.dirname];
    - [Async]  the computations of [async] functions: a tree of synchronous
               calls and of awaited operations, [await] being where a
               function is suspended;
    - the source functions, written in that monad, the operations of the
      file system on a finite map of files, and the event loop of one store
      session: calls of [writeBufferToCafs], completions of awaited
      operations in any order and with any fault, the clock, and the writes
      of other processes to the store;
    - the properties, and instances of them on sample data.

    What the model takes for granted:
    - paths are POSIX paths and file names are ASCII (a character of a
      string is one code unit);
    - an operation of the file system takes effect, as a whole, at the moment
      its promise settles;
    - [Date.now()] never goes back;
    - the locker is the one of the session: [writeBufferToCafs] is the only
      code that reads or writes it. *)

From Stdlib Require Import Ascii String DecimalString DecimalPos DecimalN.
From stdpp Require Import gmap strings list fin_maps.

Local Open Scope string_scope.

#[local] Arguments String.append !_ _.

(** ** Node's [path] module, POSIX flavour *)

Module Path.

Definition slash : ascii := "/"%char.

(** [s.split('/')]: never the empty list. *)
Fixpoint segments (s : string) : list string :=
  match s with
  | EmptyString => [EmptyString]
  | String c r =>
      if Ascii.eqb c slash then EmptyString :: segments r
      else match segments r with
           | h :: t => String c h :: t
           | [] => [String c EmptyString]
           end
  end.

Fixpoint lastChar (s : string) : option ascii :=
  match s with
  | EmptyString => None
  | String c EmptyString => Some c
  | String _ r => lastChar r
  end.

Definition firstChar (s : string) : option ascii :=
  match s with
  | EmptyString => None
  | String c _ => Some c
  end.

Definition isSlash (o : option ascii) : bool :=
  match o with
  | Some c => Ascii.eqb c slash
  | None => false
  end.

(** One round of the loop of [normalizeString]: [res] is the list of the
    segments kept so far.  Empty segments and ["."] are dropped; [".."]
    removes the last kept segment, unless there is none or it is [".."]
    itself, in which case it is kept only when [allowAboveRoot]. *)
Definition pushSegment (allowAboveRoot : bool) (res : list string) (seg : string)
  : list string :=
  if (seg =? "")%string || (seg =? ".")%string then res
  else if (seg =? "..")%string then
    match last res with
    | Some l =>
        if (l =? "..")%string
        then (if allowAboveRoot then res ++ [".."] else res)
        else removelast res
    | None => if allowAboveRoot then [".."] else []
    end
  else res ++ [seg].

Definition normalizeString (allowAboveRoot : bool) (path : string) : string :=
  String.concat "/" (fold_left (pushSegment allowAboveRoot) (segments path) []).

Definition normalize (path : string) : string :=
  if (path =? "")%string then "."
  else
    let isAbsolute := isSlash (firstChar path) in
    let trailingSeparator := isSlash (lastChar path) in
    let p := normalizeString (negb isAbsolute) path in
    if (p =? "")%string then
      if isAbsolute then "/" else if trailingSeparator then "./" else "."
    else
      let p := if trailingSeparator then p ++ "/" else p in
      if isAbsolute then "/" ++ p else p.

(** [path.join(a, b)]: the non-empty arguments joined by ["/"], normalized. *)
Definition join (a b : string) : string :=
  let joined :=
    if (a =? "")%string then b
    else if (b =? "")%string then a
    else a ++ "/" ++ b in
  if (joined =? "")%string then "." else normalize joined.

(** [path.join(...args)] for any number of arguments. *)
Definition joinAll (args : list string) : string :=
  let joined := String.concat "/" (List.filter (λ a, negb (a =? "")%string) args) in
  if (joined =? "")%string then "." else normalize joined.

(** [path.basename(p)]: the last non-empty segment, [""] when there is none. *)
Definition basename (path : string) : string :=
  default "" (last (filter (λ seg, seg ≠ "") (segments path))).

(** The backwards scan of [path.dirname] over the characters at indices
    [length rs], ..., [1]: the index of the slash that ends the directory
    part. *)
Fixpoint dirnameEnd (rs : list ascii) (matchedSlash : bool) : option nat :=
  match rs with
  | [] => None
  | c :: rs' =>
      if Ascii.eqb c slash
      then (if matchedSlash then dirnameEnd rs' true else Some (length rs))
      else dirnameEnd rs' false
  end.

Definition dirname (path : string) : string :=
  match path with
  | EmptyString => "."
  | String c r =>
      let hasRoot := Ascii.eqb c slash in
      match dirnameEnd (rev (list_ascii_of_string r)) true with
      | None => if hasRoot then "/" else "."
      | Some e => if hasRoot && (e =? 1)%nat then "//" else substring 0 e path
      end
  end.

Fixpoint hasSlash (s : string) : bool :=
  match s with
  | EmptyString => false
  | String c r => Ascii.eqb c slash || hasSlash r
  end.

(** A file name proper: one segment that [normalize] keeps as it is. *)
Definition plain (s : string) : Prop :=
  hasSlash s = false ∧ s ≠ "" ∧ s ≠ "." ∧ s ≠ "..".

End Path.

(** ** Values of the program *)

(** A Node [Buffer]. *)
Definition Buffer : Type := list Byte.byte.

(** [ssri.IntegrityLike]: the algorithm and the digest of the content. *)
Record IntegrityLike := { algorithm : string; digest : string }.

(** The object [{ size, integrity }] that [existsSame] hands to
    [verifyFileIntegrity]. *)
Record FileInfo := { expectedSize : N; expectedIntegrity : IntegrityLike }.

(** [fs.Stats], of which the source reads [size] only. *)
Record Stats := { size : N }.

(** A JavaScript error carrying [err.code]. *)
Record Error := { code : string; message : string }.

(** A regular file: its bytes and the mode it was created with. *)
Record File := { content : Buffer; fmode : option N }.

(** ** Asynchronous computations *)

Module Async.

(** Calls that return at once. *)
Inductive SyncOp :=
| DateNow
| ExistsSync (path : string).

(** Calls that return a promise which the caller awaits: the suspension
    points of the program. *)
Inductive AsyncOp :=
| Stat (path : string)
| VerifyFileIntegrity (filename : string) (expected : FileInfo)
| WriteFile (fileDest : string) (buffer : Buffer) (mode : option N)
| RenameOverwrite (oldPath newPath : string).

Definition syncReply (o : SyncOp) : Type :=
  match o with
  | DateNow => N
  | ExistsSync _ => bool
  end.

Definition answer (o : AsyncOp) : Type :=
  match o with
  | Stat _ => Stats
  | VerifyFileIntegrity _ _ => bool
  | WriteFile _ _ _ => unit
  | RenameOverwrite _ _ => unit
  end.

(** The body of an [async] function: it returns, throws, makes a synchronous
    call, or awaits a promise and continues with its settlement ([inl e]
    when the promise is rejected with [e]). *)
Inductive Async (A : Type) : Type :=
| Ret (a : A)
| Throw (e : Error)
| Sync (o : SyncOp) (k : syncReply o → Async A)
| Await (o : AsyncOp) (k : Error + answer o → Async A).

Arguments Ret {A} a.
Arguments Throw {A} e.
Arguments Sync {A} o k.
Arguments Await {A} o k.

Fixpoint bind {A B} (m : Async A) (f : A → Async B) : Async B :=
  match m with
  | Ret a => f a
  | Throw e => Throw e
  | Sync o k => Sync o (λ x, bind (k x) f)
  | Await o k => Await o (λ x, bind (k x) f)
  end.

(** [try { m } catch (err) { h err }] *)
Fixpoint tryCatch {A} (m : Async A) (h : Error → Async A) : Async A :=
  match m with
  | Ret a => Ret a
  | Throw e => h e
  | Sync o k => Sync o (λ x, tryCatch (k x) h)
  | Await o k => Await o (λ x, tryCatch (k x) h)
  end.

(** [await o]: awaiting a rejected promise throws its reason. *)
Definition await (o : AsyncOp) : Async (answer o) :=
  Await o (λ r, match r with inl e => Throw e | inr v => Ret v end).

Definition call (o : SyncOp) : Async (syncReply o) := Sync o Ret.

End Async.

Import Async.

Declare Scope async_scope.
Delimit Scope async_scope with async.
Notation "'let*' x := m 'in' k" := (bind m (λ x, k))
  (at level 10, x name, m at level 100, k at level 200) : async_scope.

(** The effects a session performs, in the order it starts them. *)
Inductive Effect :=
| ESync (o : SyncOp)
| EAwait (o : AsyncOp).

Definition Disk : Type := gmap string File.

(** The settlement of a promise of type [Promise<number>]. *)
Inductive Outcome :=
| Fulfilled (v : N)
| Rejected (e : Error).

(** The objects on the heap of the session.  [Suspended fileDest c] is the
    promise of the [async] closure of [writeBufferToCafs] (the one stored in
    the locker) while the closure is parked on the [await] at the head of
    [c]; [fileDest] is the variable the closure captured.  [Outer p] is the
    promise of an invocation of [writeBufferToCafs] itself, resolved with
    the promise [p] and so settling as [p] does. *)
Inductive Cell :=
| Suspended (fileDest : string) (c : Async N)
| Settled (o : Outcome)
| Outer (p : nat).

Record State := {
  now : N;                            (* what [Date.now()] returns *)
  disk : Disk;                        (* the files of the store directory *)
  locker : gmap string nat;           (* [Map<string, Promise<number>>] *)
  heap : list Cell;                   (* the promises, by address *)
  trace : list (string * Effect);     (* effects started, with the
                                         [fileDest] of the closure *)
}.

Definition init (now0 : N) (disk0 : Disk) : State :=
  {| now := now0; disk := disk0; locker := ∅; heap := []; trace := [] |}.

Definition setCell (p : nat) (c : Cell) (st : State) : State :=
  {| now := now st; disk := disk st; locker := locker st;
     heap := <[p := c]> (heap st); trace := trace st |}.

Definition alloc (c : Cell) (st : State) : nat * State :=
  (length (heap st),
   {| now := now st; disk := disk st; locker := locker st;
      heap := heap st ++ [c]; trace := trace st |}).

Definition log (fileDest : string) (e : Effect) (st : State) : State :=
  {| now := now st; disk := disk st; locker := locker st;
     heap := heap st; trace := trace st ++ [(fileDest, e)] |}.

Definition lockerSet (fileDest : string) (p : nat) (st : State) : State :=
  {| now := now st; disk := disk st; locker := <[fileDest := p]> (locker st);
     heap := heap st; trace := trace st |}.

Definition setDisk (d : Disk) (st : State) : State :=
  {| now := now st; disk := d; locker := locker st;
     heap := heap st; trace := trace st |}.

Definition setNow (t : N) (st : State) : State :=
  {| now := t; disk := disk st; locker := locker st;
     heap := heap st; trace := trace st |}.

(** What awaiting the promise at address [q] gives: nothing while it is
    pending. *)
Definition cellOutcome (st : State) (p : nat) : option Outcome :=
  match heap st !! p with
  | Some (Settled o) => Some o
  | _ => None
  end.

Definition outcome (st : State) (q : nat) : option Outcome :=
  match heap st !! q with
  | Some (Outer p) => cellOutcome st p
  | _ => cellOutcome st q
  end.

Definition enoent (syscall path : string) : Error :=
  {| code := "ENOENT";
     message := "ENOENT: no such file or directory, " ++ syscall ++ " " ++ path |}.

Definition existsSync (d : Disk) (path : string) : bool :=
  bool_decide (is_Some (d !! path)).

Definition syncValue (t : N) (d : Disk) (o : SyncOp) : syncReply o :=
  match o with
  | DateNow => t
  | ExistsSync path => existsSync d path
  end.

(** The synchronous calls at the head of a computation, made at time [t] on
    disk [d]. *)
Fixpoint runSync {A} (t : N) (d : Disk) (c : Async A) : Async A :=
  match c with
  | Sync o k => runSync t d (k (syncValue t d o))
  | _ => c
  end.

(** ** Sample data, for the instances at the end *)

(** A stand-in for [ssri.checkData]: the digest of some bytes is the bytes
    themselves. *)
Definition plainCheck (data : Buffer) (i : IntegrityLike) : bool :=
  (digest i =? string_of_list_byte data)%string.

Definition helloBytes : Buffer := list_byte_of_string "hello".

Definition helloIntegrity : IntegrityLike :=
  {| algorithm := "plain"; digest := "hello" |}.

Definition helloFile : File := {| content := helloBytes; fmode := Some 420%N |}.

Definition eacces : Error :=
  {| code := "EACCES"; message := "EACCES: permission denied" |}.

Definition enospc : Error :=
  {| code := "ENOSPC"; message := "ENOSPC: no space left on device" |}.

(** ** The source, [packages/pnpm/src/cmd/link.ts]: what is linked *)

Module Link.

(** A package of the workspace, as [findWorkspacePackages] returns it: of
    which the command reads [pkg.manifest.name] and [pkg.path]. *)
Record WorkspacePackage := { name : string; path : string }.

(** The three flags of the options that the command reads, and the one it
    sets. *)
Record SaveFlags := { saveDev : bool; saveProd : bool; saveOptional : bool }.

(** [inp.startsWith('.')] *)
Definition startsWithDot (inp : string) : bool :=
  match inp with
  | String c _ => Ascii.eqb c "."
  | EmptyString => false
  end.

(** [pkgNames.indexOf(name) !== -1] *)
Definition includes (pkgNames : list string) (n : string) : bool :=
  List.existsb (String.eqb n) pkgNames.

(** Lines 49 to 69: the paths to install and link, and the flags passed on.
    [workspace] is [None] when [opts.workspacePrefix] is not set, and
    otherwise what [findWorkspacePackages] returned; [globalPkgPath] is
    [pathAbsolute(opts.globalPrefix)]. *)
Definition linkTargets (input : list string) (workspace : option (list WorkspacePackage))
    (globalPkgPath : string) (flags : SaveFlags) : list string * SaveFlags :=
  let '(pkgPaths, pkgNames) := List.partition startsWithDot input in
  match pkgNames with
  | [] => (pkgPaths, flags)
  | _ =>
      let '(pkgPaths, globalPkgNames, flags) :=
        match workspace with
        | Some workspacePackages =>
            let pkgsFoundInWorkspace :=
              List.filter (λ pkg, includes pkgNames (name pkg)) workspacePackages in
            let pkgPaths := (pkgPaths ++ List.map path pkgsFoundInWorkspace)%list in
            let flags :=
              match pkgsFoundInWorkspace with
              | [] => flags
              | _ =>
                  if negb (saveDev flags) && negb (saveProd flags)
                     && negb (saveOptional flags)
                  then {| saveDev := saveDev flags; saveProd := true;
                          saveOptional := saveOptional flags |}
                  else flags
              end in
            let globalPkgNames :=
              List.filter
                (λ pkgName,
                   negb (List.existsb (λ pkgFromWorkspace,
                                         (name pkgFromWorkspace =? pkgName)%string)
                           pkgsFoundInWorkspace))
                pkgNames in
            (pkgPaths, globalPkgNames, flags)
        | None => (pkgPaths, pkgNames, flags)
        end in
      ((pkgPaths ++
        List.map (λ pkgName, Path.joinAll [globalPkgPath; "node_modules"; pkgName])
          globalPkgNames)%list,
       flags)
  end.

(** What the command does with its input: with no input it links the
    package of the working directory globally (lines 44 to 47); otherwise it
    installs in each of the paths and links them into [node_modules] of the
    working directory (lines 71 to 82). *)
Inductive Plan :=
| LinkToGlobal (cwd : string) (flags : SaveFlags)
| LinkLocal (pkgPaths : list string) (dest : string) (flags : SaveFlags).

(** [prefix] is [opts.prefix] (the empty string when it is not set, falsy
    either way), [input] is [None] when it is not given. *)
Definition plan (input : option (list string)) (prefix processCwd : string)
    (workspace : option (list WorkspacePackage)) (globalPkgPath : string)
    (flags : SaveFlags) : Plan :=
  let cwd := if (prefix =? "")%string then processCwd else prefix in
  match input with
  | None | Some [] => LinkToGlobal cwd flags
  | Some input =>
      let '(pkgPaths, flags) := linkTargets input workspace globalPkgPath flags in
      LinkLocal pkgPaths (Path.join cwd "node_modules") flags
  end.

End Link.

(** ** The source, [store/cafs/src/writeBufferToCafs.ts] *)

(** [removeSuffix]: [indexOf('-')], then [substring]. *)
Definition removeSuffix (filePath : string) : string :=
  match index 0 "-" filePath with
  | None => filePath
  | Some dashPosition =>
      let withoutSuffix := substring 0 dashPosition filePath in
      if (substring dashPosition (String.length filePath - dashPosition) filePath
          =? "-exec")%string
      then withoutSuffix ++ "x"
      else withoutSuffix
  end.

(** The decimal digits of a number, as a template literal prints it. *)
Definition decimal (n : N) : string := NilEmpty.string_of_uint (N.to_uint n).

Section Cafs.

(** [ssri.checkData]: whether the bytes have the digest of the descriptor.
    The hash function is outside the store. *)
Variable checkData : Buffer → IntegrityLike → bool.

(** [process.pid] *)
Variable pid : N.

Definition pathTemp (file : string) : string :=
  let basename := removeSuffix (Path.basename file) in
  Path.join (Path.dirname file) (basename ++ decimal pid).

(** Modelled from the spec: [verifyFileIntegrity] of
    [./checkPkgFilesIntegrity], which is not among the sources.  Section
    4.1: the size is compared first and the digest only when the size
    matches; an absent file, and any error reading it, are [false]. *)
Definition verifyFileIntegrity (fault : option Error) (d : Disk)
    (filename : string) (expected : FileInfo) : bool :=
  match fault, d !! filename with
  | None, Some f =>
      (N.of_nat (length (content f)) =? expectedSize expected)%N
      && checkData (content f) (expectedIntegrity expected)
  | _, _ => false
  end.

(** Modelled from the spec: [writeFile] of [./writeFile], which is not among
    the sources.  Section 4.4: the whole buffer is written to the path with
    the mode bits, creating or truncating the file; section 7: on an I/O
    error nothing is written. *)
Definition writeFile (fault : option Error) (d : Disk)
    (fileDest : string) (buffer : Buffer) (mode : option N) : (Error + unit) * Disk :=
  match fault with
  | Some e => (inl e, d)
  | None => (inr tt, <[fileDest := {| content := buffer; fmode := mode |}]> d)
  end.

(** [fs.stat]: fails when the file is missing, or with the fault the
    operating system reports. *)
Definition stat (fault : option Error) (d : Disk) (path : string) : (Error + Stats) * Disk :=
  match fault with
  | Some e => (inl e, d)
  | None =>
      match d !! path with
      | Some f => (inr {| size := N.of_nat (length (content f)) |}, d)
      | None => (inl (enoent "stat" path), d)
      end
  end.

(** [renameOverwrite] of the package [rename-overwrite] (section 4.3): the
    file at [oldPath] replaces whatever is at [newPath] in one step; it
    fails when [oldPath] is missing, or with the fault reported. *)
Definition renameOverwrite (fault : option Error) (d : Disk)
    (oldPath newPath : string) : (Error + unit) * Disk :=
  match fault with
  | Some e => (inl e, d)
  | None =>
      match d !! oldPath with
      | Some f => (inr tt, <[newPath := f]> (delete oldPath d))
      | None => (inl (enoent "rename" oldPath), d)
      end
  end.

(** The settlement of the promise of [o], when the operation completes on
    disk [d] under [fault], and the disk it leaves. *)
Definition complete (o : AsyncOp) (fault : option Error) (d : Disk)
  : (Error + answer o) * Disk :=
  match o with
  | Stat path => stat fault d path
  | VerifyFileIntegrity filename expected =>
      (inr (verifyFileIntegrity fault d filename expected), d)
  | WriteFile fileDest buffer mode => writeFile fault d fileDest buffer mode
  | RenameOverwrite oldPath newPath => renameOverwrite fault d oldPath newPath
  end.

Local Open Scope async_scope.

(** [existsSame]: [None] stands for the [return false] of the [catch]. *)
Definition existsSame (filename : string) (integrity : IntegrityLike) : Async bool :=
  let* existingFile :=
    tryCatch (let* s := await (Stat filename) in Ret (Some s))
             (λ err, Ret None) in
  match existingFile with
  | None => Ret false
  | Some existingFile =>
      await (VerifyFileIntegrity filename
               {| expectedSize := size existingFile; expectedIntegrity := integrity |})
  end.

(** [optimisticRenameOverwrite]: [||] evaluates [existsSync] only when the
    code is [ENOENT]. *)
Definition optimisticRenameOverwrite (temp fileDest : string) : Async unit :=
  tryCatch (await (RenameOverwrite temp fileDest))
    (λ err,
       if negb (code err =? "ENOENT")%string then Throw err
       else
         let* present := call (ExistsSync fileDest) in
         if negb present then Throw err else Ret tt).

(** Lines 44 and 45 of the closure: the commit, after which the closure
    returns the timestamp it holds. *)
Definition commitPath (temp fileDest : string) (birthtimeMs : N) : Async N :=
  let* _ := optimisticRenameOverwrite temp fileDest in
  Ret birthtimeMs.

(** Lines 38 to 45 of the closure: the write path. *)
Definition writePath (buffer : Buffer) (fileDest : string) (mode : option N) : Async N :=
  let temp := pathTemp fileDest in
  let* _ := await (WriteFile temp buffer mode) in
  let* birthtimeMs := call DateNow in
  commitPath temp fileDest birthtimeMs.

(** The closure [p] of [writeBufferToCafs], lines 20 to 46; [fileDest] is
    the joined path. *)
Definition writeBody (buffer : Buffer) (fileDest : string) (mode : option N)
    (integrity : IntegrityLike) : Async N :=
  let* same := existsSame fileDest integrity in
  if same then call DateNow
  else writePath buffer fileDest mode.

(** One completion of the awaited operation, and the synchronous code that
    follows it. *)
Definition resume {A} (fault : option Error) (t : N) (d : Disk) (c : Async A)
  : Async A * Disk :=
  match c with
  | Await o k => let '(r, d') := complete o fault d in (runSync t d' (k r), d')
  | _ => (c, d)
  end.

(** Runs the closure of promise [p] up to its next [await], or to its end,
    which settles [p]. *)
Fixpoint advance (p : nat) (fileDest : string) (c : Async N) (st : State) : State :=
  match c with
  | Ret v => setCell p (Settled (Fulfilled v)) st
  | Throw e => setCell p (Settled (Rejected e)) st
  | Sync o k =>
      advance p fileDest (k (syncValue (now st) (disk st) o)) (log fileDest (ESync o) st)
  | Await o k => setCell p (Suspended fileDest c) (log fileDest (EAwait o) st)
  end.

(** [writeBufferToCafs]; the locker is the one of the session.  The function
    has no [await] of its own: the closure runs up to its first [await],
    the promise is stored, and the function returns.  The result is the
    address of the promise returned to the caller. *)
Definition writeBufferToCafs (cafsDir : string) (buffer : Buffer) (fileDest : string)
    (mode : option N) (integrity : IntegrityLike) (st : State) : nat * State :=
  let fileDest := Path.join cafsDir fileDest in
  match locker st !! fileDest with
  | Some p => alloc (Outer p) st
  | None =>
      let body := writeBody buffer fileDest mode integrity in
      let '(p, st) := alloc (Suspended fileDest body) st in
      let st := advance p fileDest body st in
      let st := lockerSet fileDest p st in
      alloc (Outer p) st
  end.

(** What can happen in a session: a call of [writeBufferToCafs]; the
    operation awaited by the closure of promise [p] completes, with the
    fault the operating system reports, if any; time passes; another process
    creates, replaces or removes a file of the store. *)
Inductive Event :=
| Call (cafsDir : string) (buffer : Buffer) (fileDest : string)
       (mode : option N) (integrity : IntegrityLike)
| Resume (p : nat) (fault : option Error)
| Tick (ms : N)
| External (path : string) (f : option File).

Definition step (st : State) (e : Event) : State :=
  match e with
  | Call cafsDir buffer fileDest mode integrity =>
      snd (writeBufferToCafs cafsDir buffer fileDest mode integrity st)
  | Resume p fault =>
      match heap st !! p with
      | Some (Suspended fileDest (Await o k)) =>
          let '(r, d') := complete o fault (disk st) in
          advance p fileDest (k r) (setDisk d' st)
      | _ => st
      end
  | Tick ms => setNow (now st + ms)%N st
  | External path f => setDisk (partial_alter (λ _, f) path (disk st)) st
  end.

Definition run (st : State) (evs : list Event) : State := fold_left step evs st.


(** ** Vocabulary of the properties *)

Local Open Scope nat_scope.

(** The effects started by the closure whose destination is [fileDest]. *)
Definition tagged (fileDest : string) (tr : list (string * Effect)) : list (string * Effect) :=
  filter (λ x, x.1 = fileDest) tr.

Definition isWrite (e : Effect) : bool :=
  match e with
  | EAwait (WriteFile _ _ _) => true
  | _ => false
  end.

Definition isRename (e : Effect) : bool :=
  match e with
  | EAwait (RenameOverwrite _ _) => true
  | _ => false
  end.

Definition renamesOnto (fileDest : string) (e : Effect) : bool :=
  match e with
  | EAwait (RenameOverwrite _ newPath) => bool_decide (newPath = fileDest)
  | _ => false
  end.

Definition countFor (f : Effect → bool) (fileDest : string)
    (tr : list (string * Effect)) : nat :=
  length (filter (λ x, f x.2 = true) (tagged fileDest tr)).

(** How many times the temporary file of [fileDest] was created and
    written, and how many times it was renamed. *)
Definition writesFor (fileDest : string) (tr : list (string * Effect)) : nat :=
  countFor isWrite fileDest tr.

Definition renamesFor (fileDest : string) (tr : list (string * Effect)) : nat :=
  countFor isRename fileDest tr.

(** How many renames, of any closure, had [fileDest] as their target. *)
Definition renamesTo (fileDest : string) (tr : list (string * Effect)) : nat :=
  length (filter (λ x, renamesOnto fileDest x.2 = true) tr).

Definition writeCost (o : AsyncOp) : nat :=
  match o with
  | WriteFile _ _ _ => 1
  | _ => 0
  end.

Definition renameCost (o : AsyncOp) : nat :=
  match o with
  | RenameOverwrite _ _ => 1
  | _ => 0
  end.

(** The paths a closure for [fileDest] may write and rename. *)
Definition targets (fileDest : string) (e : Effect) : Prop :=
  match e with
  | EAwait (WriteFile t _ _) => t = pathTemp fileDest
  | EAwait (RenameOverwrite t n) => t = pathTemp fileDest ∧ n = fileDest
  | _ => True
  end.

(** [within fileDest w r c]: on every path through [c] there are at most
    [w] writes and [r] renames, all of them on the paths of [fileDest]. *)
Fixpoint within (fileDest : string) (w r : nat) (c : Async N) : Prop :=
  match c with
  | Ret _ | Throw _ => True
  | Sync o k => ∀ x, within fileDest w r (k x)
  | Await o k =>
      writeCost o ≤ w ∧ renameCost o ≤ r ∧ targets fileDest (EAwait o)
      ∧ ∀ x, within fileDest (w - writeCost o) (r - renameCost o) (k x)
  end.

(** The closure once [fs.stat] has returned [s]: it awaits the promise of
    [verifyFileIntegrity] (line 97) and goes on at line 26. *)
Definition afterStat (buffer : Buffer) (fileDest : string) (mode : option N)
    (integrity : IntegrityLike) (s : Stats) : Async N :=
  (let* same :=
     await (VerifyFileIntegrity fileDest
              {| expectedSize := size s; expectedIntegrity := integrity |}) in
   if same then call DateNow
   else writePath buffer fileDest mode)%async.

(** The cell of a promise whose closure has run up to [c]. *)
Definition cellOf (fileDest : string) (c : Async N) : Cell :=
  match c with
  | Ret v => Settled (Fulfilled v)
  | Throw e => Settled (Rejected e)
  | _ => Suspended fileDest c
  end.

(** The effects a computation starts before it is parked or ends. *)
Fixpoint started {A} (t : N) (d : Disk) (c : Async A) : list Effect :=
  match c with
  | Sync o k => ESync o :: started t d (k (syncValue t d o))
  | Await o _ => [EAwait o]
  | _ => []
  end.

(** A parked closure for [fileDest], with the writes and renames it may
    still start: with those of the trace, one of each at most. *)
Definition parkedWithin (fileDest : string) (tr : list (string * Effect))
    (c : Async N) : Prop :=
  match c with
  | Await o k =>
      ∃ w r, (∀ x, within fileDest w r (k x))
             ∧ writesFor fileDest tr + w ≤ 1 ∧ renamesFor fileDest tr + r ≤ 1
  | _ => False
  end.

(** The invariant of a session. *)
Record Inv (st : State) : Prop := {
  inv_owner : ∀ p d c, heap st !! p = Some (Suspended d c) → locker st !! d = Some p;
  inv_fresh : ∀ d, locker st !! d = None → tagged d (trace st) = [];
  inv_budget : ∀ p d c, heap st !! p = Some (Suspended d c) → parkedWithin d (trace st) c;
  inv_once : ∀ d, writesFor d (trace st) ≤ 1 ∧ renamesFor d (trace st) ≤ 1;
  inv_targets : Forall (λ x, targets x.1 x.2) (trace st);
}.

(** [step] as a relation, each case in closed form. *)
Inductive Stepped (st : State) : Event → State → Prop :=
| stepped_cached cafsDir buffer fileDest mode integrity p :
    locker st !! Path.join cafsDir fileDest = Some p →
    Stepped st (Call cafsDir buffer fileDest mode integrity)
      {| now := now st; disk := disk st; locker := locker st;
         heap := heap st ++ [Outer p]; trace := trace st |}
| stepped_fresh cafsDir buffer fileDest mode integrity :
    let d := Path.join cafsDir fileDest in
    let body := writeBody buffer d mode integrity in
    let p := length (heap st) in
    locker st !! d = None →
    Stepped st (Call cafsDir buffer fileDest mode integrity)
      {| now := now st; disk := disk st; locker := <[d := p]> (locker st);
         heap := heap st ++ [cellOf d (runSync (now st) (disk st) body); Outer p];
         trace := trace st ++ map (pair d) (started (now st) (disk st) body) |}
| stepped_resume p fault d o k :
    heap st !! p = Some (Suspended d (Await o k)) →
    let r := complete o fault (disk st) in
    Stepped st (Resume p fault)
      {| now := now st; disk := r.2; locker := locker st;
         heap := <[p := cellOf d (runSync (now st) r.2 (k r.1))]> (heap st);
         trace := trace st ++ map (pair d) (started (now st) r.2 (k r.1)) |}
| stepped_idle p fault :
    match heap st !! p with
    | Some (Suspended _ (Await _ _)) => False
    | _ => True
    end →
    Stepped st (Resume p fault) st
| stepped_tick ms :
    Stepped st (Tick ms) (setNow (now st + ms)%N st)
| stepped_external path f :
    Stepped st (External path f) (setDisk (partial_alter (λ _, f) path (disk st)) st).

(** No event of [evs] completes the operation awaited by promise [p]. *)
Definition noResume (p : nat) (evs : list Event) : bool :=
  forallb (λ e, match e with Resume p' _ => negb (p' =? p) | _ => true end) evs.

Definition isSuspended (st : State) (p : nat) : bool :=
  match heap st !! p with
  | Some (Suspended _ _) => true
  | _ => false
  end.

(** The write of promise [p] fails with [e] when the operation it awaits
    completes under [fault]: the temporary file cannot be written, or the
    rename fails and the failure is not the tolerated one. *)
Definition failsFatally (st : State) (p : nat) (fault : option Error) (e : Error) : Prop :=
  (∃ fileDest buffer mode,
      heap st !! p = Some (Suspended fileDest (writePath buffer fileDest mode))
      ∧ fault = Some e)
  ∨ (∃ fileDest birthtimeMs,
      heap st !! p = Some (Suspended fileDest (commitPath (pathTemp fileDest) fileDest birthtimeMs))
      ∧ (renameOverwrite fault (disk st) (pathTemp fileDest) fileDest).1 = inl e
      ∧ ¬ (code e = "ENOENT" ∧ existsSync (disk st) fileDest = true)).

(** ** Vocabulary of the further properties *)

(** Whether the character [c] occurs in [s]. *)
Fixpoint hasChar (c : ascii) (s : string) : bool :=
  match s with
  | EmptyString => false
  | String c' r => Ascii.eqb c' c || hasChar c r
  end.

Definition dash : ascii := "-"%char.

(** [timely t0 t c]: when [c] runs on at time [t], and is resumed at later
    times only, every value it returns lies between [t0] and the time at
    which it returns. *)
Fixpoint timely (t0 t : N) (c : Async N) : Prop :=
  match c with
  | Ret v => (t0 ≤ v ≤ t)%N
  | Throw _ => True
  | Sync o k => ∀ dk, timely t0 t (k (syncValue t dk o))
  | Await o k => ∀ x t', (t ≤ t')%N → timely t0 t' (k x)
  end.

(** The promise at [p] is allocated, and what it holds or may come to hold
    is a time between [t0] and now. *)
Definition timelyCell (t0 : N) (st : State) (p : nat) : Prop :=
  match heap st !! p with
  | Some (Suspended _ c) => ∃ tp, (tp ≤ now st)%N ∧ timely t0 tp c
  | Some (Settled (Fulfilled v)) => (t0 ≤ v ≤ now st)%N
  | Some _ => True
  | None => False
  end.

(** [orderly written c]: on every path through [c] a rename is started only
    once a write has been, [written] telling whether one already was. *)
Fixpoint orderly (written : bool) (c : Async N) : Prop :=
  match c with
  | Ret _ | Throw _ => True
  | Sync o k => ∀ x, orderly written (k x)
  | Await o k =>
      (renameCost o = 1 → written = true)
      ∧ ∀ x, orderly (written || bool_decide (writeCost o = 1)) (k x)
  end.

Definition parkedOrderly (fileDest : string) (tr : list (string * Effect))
    (c : Async N) : Prop :=
  match c with
  | Await o k => ∀ x, orderly (bool_decide (0 < writesFor fileDest tr)) (k x)
  | _ => True
  end.

(** The invariant of a session, with the order of writes and renames. *)
Record InvOrder (st : State) : Prop := {
  ord_inv : Inv st;
  ord_parked : ∀ p d c, heap st !! p = Some (Suspended d c) → parkedOrderly d (trace st) c;
  ord_counts : ∀ d, renamesFor d (trace st) ≤ writesFor d (trace st);
}.

(** [settlesWithin n c]: [c] returns or throws after at most [n] awaits. *)
Fixpoint settlesWithin (n : nat) (c : Async N) : Prop :=
  match c with
  | Ret _ | Throw _ => True
  | Sync o k => ∀ x, settlesWithin n (k x)
  | Await o k => 0 < n ∧ ∀ x, settlesWithin (n - 1) (k x)
  end.

(** How many events of [evs] complete the operation awaited by promise [p]. *)
Definition resumes (p : nat) (evs : list Event) : nat :=
  length (List.filter (λ e, match e with Resume p' _ => p' =? p | _ => false end) evs).

(** The promise at [p] is settled, or its closure needs at most [n] more
    completions. *)
Definition settlingCell (n : nat) (st : State) (p : nat) : Prop :=
  match heap st !! p with
  | Some (Suspended _ (Await o k)) => settlesWithin n (Await o k)
  | Some (Settled _) => True
  | _ => False
  end.

(** * Properties *)

(** ** Paths *)

Lemma segments_nonempty s : Path.segments s ≠ [].
Proof.
  destruct s as [|c r]; simpl; [done|].
  destruct (Ascii.eqb c Path.slash); [done|].
  by destruct (Path.segments r).
Qed.

Lemma segments_app a b :
  Path.segments (a ++ String Path.slash b) = (Path.segments a ++ Path.segments b)%list.
Proof.
  induction a as [|c a IH]; [done|].
  simpl. rewrite IH.
  destruct (Ascii.eqb c Path.slash); [done|].
  pose proof (segments_nonempty a) as Hne.
  by destruct (Path.segments a).
Qed.

Lemma segments_noslash s : Path.hasSlash s = false → Path.segments s = [s].
Proof.
  induction s as [|c r IH]; [done|].
  simpl. intros [Hc Hr]%orb_false_iff.
  by rewrite Hc, (IH Hr).
Qed.

Lemma lastChar_app a s : s ≠ "" → Path.lastChar (a ++ s) = Path.lastChar s.
Proof.
  intros Hs. induction a as [|c a IH]; [done|].
  simpl. rewrite IH.
  destruct (a ++ s) eqn:E; [|done].
  destruct a, s; simplify_eq.
Qed.

Lemma lastChar_noslash s : Path.hasSlash s = false → Path.isSlash (Path.lastChar s) = false.
Proof.
  induction s as [|c r IH]; [done|].
  simpl. intros [Hc Hr]%orb_false_iff.
  destruct r; [done|]. by apply IH.
Qed.

Lemma firstChar_noslash s : Path.hasSlash s = false → Path.isSlash (Path.firstChar s) = false.
Proof. destruct s; [done|]. simpl. by intros [Hc _]%orb_false_iff. Qed.

Lemma append_nonempty a s : s ≠ "" → a ++ s ≠ "".
Proof. by destruct a, s. Qed.

Lemma eqb_neq_false (a b : string) : a ≠ b → (a =? b)%string = false.
Proof. by intros H; apply String.eqb_neq. Qed.

Lemma pushSegment_plain allow res s : Path.plain s → Path.pushSegment allow res s = (res ++ [s])%list.
Proof.
  intros (_ & H1 & H2 & H3). unfold Path.pushSegment.
  by rewrite !eqb_neq_false.
Qed.

Lemma append_assoc (a b c : string) : (a ++ b) ++ c = a ++ b ++ c.
Proof. induction a as [|x a IH]; simpl; congruence. Qed.

Lemma concat_snoc sep res s :
  res ≠ [] → String.concat sep (res ++ [s])%list = String.concat sep res ++ sep ++ s.
Proof.
  induction res as [|x res IH]; [done|]. intros _.
  destruct res as [|y res]; [done|].
  change (String.concat sep ((x :: y :: res) ++ [s])%list)
    with (x ++ sep ++ String.concat sep ((y :: res) ++ [s])%list).
  rewrite IH by done.
  change (String.concat sep (x :: y :: res)) with (x ++ sep ++ String.concat sep (y :: res)).
  by rewrite !append_assoc.
Qed.

(** Joining a directory and a file name proper leaves the name at the end
    of the path, after a slash if anything comes before. *)
Lemma join_plain d s :
  Path.plain s → Path.join d s = s ∨ ∃ pre, Path.join d s = pre ++ String Path.slash s.
Proof.
  intros Hp. pose proof Hp as (Hs & Hne & _).
  assert (Hnorm : ∀ j, j ≠ "" →
    Path.isSlash (Path.lastChar j) = false →
    (∃ res, Path.segments j = (res ++ [s])%list) →
    Path.normalize j = s ∨ ∃ pre, Path.normalize j = pre ++ String Path.slash s).
  { intros j Hj Hlast [res Hres]. unfold Path.normalize, Path.normalizeString.
    rewrite (eqb_neq_false _ _ Hj), Hlast, Hres, fold_left_app. simpl.
    rewrite pushSegment_plain by done.
    set (kept := fold_left _ res []).
    assert (Hp' : String.concat "/" (kept ++ [s])%list = s
                  ∨ ∃ pre, String.concat "/" (kept ++ [s])%list = pre ++ String Path.slash s).
    { destruct kept as [|x kept'] eqn:E; [by left|].
      right. rewrite concat_snoc by done. eauto. }
    assert (String.concat "/" (kept ++ [s])%list ≠ "") as Hne'.
    { destruct Hp' as [->|[pre ->]]; [done|]. by destruct pre. }
    rewrite (eqb_neq_false _ _ Hne').
    destruct (Path.isSlash (Path.firstChar j)); [|done].
    right. destruct Hp' as [->|[pre ->]].
    - by exists "".
    - by exists ("/" ++ pre). }
  unfold Path.join.
  destruct (d =? "")%string eqn:Ed.
  - rewrite (eqb_neq_false _ _ Hne). apply Hnorm; [done| |].
    + by apply lastChar_noslash.
    + exists []. by apply segments_noslash.
  - rewrite (eqb_neq_false _ _ Hne).
    assert (Hjoined : d ++ "/" ++ s = d ++ String Path.slash s) by done.
    rewrite Hjoined.
    assert (d ++ String Path.slash s ≠ "") as Hj by (apply append_nonempty; done).
    rewrite (eqb_neq_false _ _ Hj). apply Hnorm; [done| |].
    + rewrite lastChar_app by done.
      simpl. destruct s as [|c s]; [done|]. by apply (lastChar_noslash (String c s)).
    + exists (Path.segments d).
      by rewrite segments_app, (segments_noslash s).
Qed.

Lemma basename_plain s : Path.plain s → Path.basename s = s.
Proof.
  intros (Hs & Hne & _). unfold Path.basename.
  rewrite segments_noslash by done.
  by rewrite filter_cons_True.
Qed.

Lemma basename_under pre s : Path.plain s → Path.basename (pre ++ String Path.slash s) = s.
Proof.
  intros (Hs & Hne & _). unfold Path.basename.
  rewrite segments_app, (segments_noslash s), filter_app by done.
  rewrite (filter_cons_True _ s) by done.
  by rewrite filter_nil, last_snoc.
Qed.

Lemma basename_join d s : Path.plain s → Path.basename (Path.join d s) = s.
Proof.
  intros Hp. destruct (join_plain d s Hp) as [->|[pre ->]].
  - by apply basename_plain.
  - by apply basename_under.
Qed.

Lemma join_plain_inj d s s' :
  Path.plain s → Path.plain s' → Path.join d s = Path.join d s' → s = s'.
Proof.
  intros Hs Hs' E. rewrite <- (basename_join d s), <- (basename_join d s') by done.
  by rewrite E.
Qed.

Lemma hasSlash_app a b : Path.hasSlash (a ++ b) = Path.hasSlash a || Path.hasSlash b.
Proof. induction a as [|c a IH]; [done|]. simpl. by rewrite IH, orb_assoc. Qed.

Lemma string_of_uint_noslash d : Path.hasSlash (NilEmpty.string_of_uint d) = false.
Proof. induction d; simpl; done. Qed.

Lemma decimal_noslash n : Path.hasSlash (decimal n) = false.
Proof. apply string_of_uint_noslash. Qed.

(** ** Temporary names *)

Lemma removeSuffix_exec : removeSuffix "foo-exec" = "foox".
Proof. reflexivity. Qed.

Lemma removeSuffix_other : removeSuffix "foo-other" = "foo".
Proof. reflexivity. Qed.

Lemma removeSuffix_none : removeSuffix "foo" = "foo".
Proof. reflexivity. Qed.

Lemma plain_foo_pid (marker : string) :
  Path.hasSlash marker = false → Path.plain ("foo" ++ marker ++ decimal pid).
Proof.
  intros Hm. repeat split; try done.
  rewrite !hasSlash_app, Hm, decimal_noslash. done.
Qed.

Lemma string_cons_neq c (s : string) : String c s ≠ s.
Proof. induction s as [|c' s IH]; [done|]. intros [= -> E]. by apply IH. Qed.

(** C3, as amended.  For destinations of one directory whose file names are
    "foo-exec", "foo-other" and "foo": the temporary name of the first is
    "foo", the marker "x" and the process id; it differs from the
    temporary names of the other two; the temporary names of "foo-other"
    and "foo" are the same path. *)
Theorem pathTemp_exec_marker (fexec fother fplain : string) :
  Path.basename fexec = "foo-exec" →
  Path.basename fother = "foo-other" →
  Path.basename fplain = "foo" →
  Path.dirname fother = Path.dirname fexec →
  Path.dirname fplain = Path.dirname fexec →
  Path.basename (pathTemp fexec) = "foo" ++ "x" ++ decimal pid
  ∧ (∃ pre, pathTemp fexec = pre ++ "x" ++ decimal pid)
  ∧ pathTemp fexec ≠ pathTemp fother
  ∧ pathTemp fexec ≠ pathTemp fplain
  ∧ pathTemp fother = pathTemp fplain.
Proof.
  intros Hexec Hother Hplain Hd1 Hd2. unfold pathTemp.
  rewrite Hexec, Hother, Hplain, Hd1, Hd2.
  rewrite removeSuffix_exec, removeSuffix_other, removeSuffix_none.
  set (dir := Path.dirname fexec).
  assert (Hx : Path.plain ("foo" ++ "x" ++ decimal pid)) by by apply plain_foo_pid.
  assert (Hn : Path.plain ("foo" ++ "" ++ decimal pid)) by by apply plain_foo_pid.
  assert (Hne : Path.join dir ("foox" ++ decimal pid) ≠ Path.join dir ("foo" ++ decimal pid)).
  { intros E. apply (join_plain_inj dir _ _ Hx Hn) in E.
    injection E as E. by apply string_cons_neq in E. }
  repeat split; try done.
  - by apply (basename_join dir _ Hx).
  - destruct (join_plain dir _ Hx) as [E|[pre E]].
    + exists "foo". exact E.
    + exists (pre ++ "/foo"). etransitivity; [exact E|]. by rewrite append_assoc.
Qed.

(** ** The scheduler *)

(** [advance] in closed form: the cell of [p] is what [runSync] leaves, the
    trace grows by the effects started. *)
Lemma advance_eq p fileDest c st :
  advance p fileDest c st =
  {| now := now st; disk := disk st; locker := locker st;
     heap := <[p := cellOf fileDest (runSync (now st) (disk st) c)]> (heap st);
     trace := (trace st ++ map (pair fileDest) (started (now st) (disk st) c))%list |}.
Proof.
  revert st. induction c as [v|e|o k IH|o k]; intros st; simpl.
  - unfold setCell. by rewrite app_nil_r.
  - unfold setCell. by rewrite app_nil_r.
  - rewrite IH. simpl. by rewrite <- app_assoc.
  - done.
Qed.

Lemma runSync_not_sync {A} t d (c : Async A) o k : runSync t d c ≠ Sync o k.
Proof. induction c; simpl; try done. Qed.

Lemma step_resume_eq st p fileDest c fault :
  heap st !! p = Some (Suspended fileDest c) →
  (∃ o k, c = Await o k) →
  step st (Resume p fault) =
  {| now := now st; disk := (resume fault (now st) (disk st) c).2; locker := locker st;
     heap := <[p := cellOf fileDest (resume fault (now st) (disk st) c).1]> (heap st);
     trace := (trace st ++ map (pair fileDest)
                 (match c with
                  | Await o k =>
                      started (now st) (complete o fault (disk st)).2
                        (k (complete o fault (disk st)).1)
                  | _ => []
                  end))%list |}.
Proof.
  intros Hp (o & k & ->). simpl. rewrite Hp.
  destruct (complete o fault (disk st)) as [r d'] eqn:E.
  by rewrite advance_eq.
Qed.

Lemma step_resume_idle st p fault :
  isSuspended st p = false → step st (Resume p fault) = st.
Proof.
  unfold isSuspended. simpl. destruct (heap st !! p) as [[]|]; done.
Qed.

Lemma writeBufferToCafs_cached cafsDir buffer fileDest mode integrity st p :
  locker st !! Path.join cafsDir fileDest = Some p →
  writeBufferToCafs cafsDir buffer fileDest mode integrity st =
  (length (heap st),
   {| now := now st; disk := disk st; locker := locker st;
      heap := heap st ++ [Outer p]; trace := trace st |}).
Proof. intros H. unfold writeBufferToCafs. by rewrite H. Qed.

Lemma writeBufferToCafs_fresh cafsDir buffer fileDest mode integrity st :
  let d := Path.join cafsDir fileDest in
  let body := writeBody buffer d mode integrity in
  locker st !! d = None →
  writeBufferToCafs cafsDir buffer fileDest mode integrity st =
  (S (length (heap st)),
   {| now := now st; disk := disk st; locker := <[d := length (heap st)]> (locker st);
      heap := heap st ++ [cellOf d (runSync (now st) (disk st) body);
                          Outer (length (heap st))];
      trace := trace st ++ map (pair d) (started (now st) (disk st) body) |}).
Proof.
  intros d body H. unfold writeBufferToCafs. fold d. rewrite H. fold body.
  generalize body. clear body. intros body.
  destruct st as [t dk lk hp tr].
  cbv beta iota zeta delta [alloc lockerSet now disk locker heap trace].
  rewrite advance_eq.
  cbv beta iota zeta delta [now disk locker heap trace].
  rewrite insert_app_r_alt, Nat.sub_diag by done.
  rewrite length_app. simpl. rewrite Nat.add_1_r.
  by rewrite <- app_assoc.
Qed.

Lemma step_Stepped st e : Stepped st e (step st e).
Proof.
  destruct e as [cafsDir buffer fileDest mode integrity|p fault|ms|path f]; simpl.
  - destruct (locker st !! Path.join cafsDir fileDest) as [p|] eqn:E.
    + rewrite (writeBufferToCafs_cached _ _ _ _ _ _ p) by done. by constructor.
    + rewrite writeBufferToCafs_fresh by done. by constructor.
  - destruct (heap st !! p) as [[d c|o|q]|] eqn:E; try (constructor; by rewrite E).
    destruct c as [v|e|o k|o k]; try (constructor; by rewrite E).
    destruct (complete o fault (disk st)) as [r d'] eqn:Ec.
    rewrite advance_eq. simpl.
    pose proof (stepped_resume st p fault d o k E) as H.
    simpl in H. by rewrite Ec in H.
  - constructor.
  - constructor.
Qed.

(** ** Counting the effects of one destination *)

Lemma tagged_app d (tr tr' : list (string * Effect)) :
  tagged d (tr ++ tr') = (tagged d tr ++ tagged d tr')%list.
Proof. apply filter_app. Qed.

Lemma tagged_map_same d (effs : list Effect) :
  tagged d (map (pair d) effs) = map (pair d) effs.
Proof.
  induction effs as [|e effs IH]; [done|].
  unfold tagged in *. simpl. rewrite filter_cons_True by done. by rewrite IH.
Qed.

Lemma tagged_map_other d d' (effs : list Effect) :
  d ≠ d' → tagged d (map (pair d') effs) = [].
Proof.
  intros Hne. induction effs as [|e effs IH]; [done|].
  unfold tagged in *. simpl. rewrite filter_cons_False; [done|]. simpl. congruence.
Qed.

Lemma filter_map_pair (f : Effect → bool) d (effs : list Effect) :
  length (filter (λ x : string * Effect, f x.2 = true) (map (pair d) effs))
  = length (filter (λ e, f e = true) effs).
Proof.
  induction effs as [|e effs IH]; [done|]. simpl.
  destruct (f e) eqn:E.
  - rewrite !filter_cons_True by done. simpl. by rewrite IH.
  - rewrite !filter_cons_False by (simpl; congruence). done.
Qed.

Lemma countFor_grow f d tr (effs : list Effect) :
  countFor f d (tr ++ map (pair d) effs)
  = countFor f d tr + length (filter (λ e, f e = true) effs).
Proof.
  unfold countFor. by rewrite tagged_app, tagged_map_same, filter_app, length_app, filter_map_pair.
Qed.

Lemma countFor_other f d d' tr (effs : list Effect) :
  d ≠ d' → countFor f d (tr ++ map (pair d') effs) = countFor f d tr.
Proof.
  intros Hne. unfold countFor. by rewrite tagged_app, tagged_map_other, app_nil_r.
Qed.

Lemma countFor_fresh f d tr : tagged d tr = [] → countFor f d tr = 0.
Proof. unfold countFor. by intros ->. Qed.

(** What a computation within its budget starts before it parks. *)
Lemma started_budget d w r t dk (c : Async N) :
  within d w r c →
  Forall (targets d) (started t dk c)
  ∧ match runSync t dk c with
    | Await o k =>
        length (filter (λ e, isWrite e = true) (started t dk c)) = writeCost o
        ∧ length (filter (λ e, isRename e = true) (started t dk c)) = renameCost o
        ∧ writeCost o ≤ w ∧ renameCost o ≤ r
        ∧ ∀ x, within d (w - writeCost o) (r - renameCost o) (k x)
    | _ =>
        length (filter (λ e, isWrite e = true) (started t dk c)) = 0
        ∧ length (filter (λ e, isRename e = true) (started t dk c)) = 0
    end.
Proof.
  induction c as [v|e|o k IH|o k _]; simpl; intros Hw.
  - by split; [constructor|].
  - by split; [constructor|].
  - destruct (IH _ (Hw (syncValue t dk o))) as [Ht Hc]. split.
    + by constructor.
    + by rewrite !filter_cons_False by done.
  - destruct Hw as (Hwc & Hrc & Ht & Hk). split.
    + by repeat constructor.
    + repeat split; try done; by destruct o.
Qed.

Lemma advance_budget d w r t dk c tr :
  within d w r c →
  writesFor d tr + w ≤ 1 →
  renamesFor d tr + r ≤ 1 →
  let tr' := (tr ++ map (pair d) (started t dk c))%list in
  writesFor d tr' ≤ 1 ∧ renamesFor d tr' ≤ 1
  ∧ ∀ d' c', cellOf d (runSync t dk c) = Suspended d' c' → d' = d ∧ parkedWithin d tr' c'.
Proof.
  intros Hc Hw Hr tr'. destruct (started_budget d w r t dk c Hc) as [_ Hb].
  unfold tr', writesFor, renamesFor in *. rewrite !countFor_grow.
  pose proof (runSync_not_sync t dk c) as Hns.
  destruct (runSync t dk c) as [v|e|o k|o k]; simpl.
  - destruct Hb as [-> ->]. repeat split; try lia; done.
  - destruct Hb as [-> ->]. repeat split; try lia; done.
  - by destruct (Hns o k).
  - destruct Hb as (Hb1 & Hb2 & Hwc & Hrc & Hk). rewrite Hb1, Hb2.
    split; [lia|]. split; [lia|].
    intros d' c' [= <- <-]. split; [done|]. simpl.
    exists (w - writeCost o), (r - renameCost o).
    unfold writesFor, renamesFor. rewrite !countFor_grow, Hb1, Hb2.
    split; [exact Hk|]. lia.
Qed.

(** The closure writes its temporary file at most once and renames it at
    most once, whatever the settlements it is resumed with. *)
Lemma writeBody_within buffer d mode integrity :
  within d 1 1 (writeBody buffer d mode integrity).
Proof.
  unfold writeBody, existsSame, writePath, commitPath, optimisticRenameOverwrite, await, call.
  simpl. repeat split; try lia.
  intros [e|s]; simpl.
  - repeat split; try lia. intros [e'|[]]; simpl; [done|].
    intros t. repeat split; try lia. intros [e'|[]]; simpl; [|done].
    destruct (negb (code e' =? "ENOENT")%string); simpl; [done|].
    intros []; simpl; done.
  - repeat split; try lia. intros [e|[]]; simpl; [done| |].
    + done.
    + repeat split; try lia. intros [e'|[]]; simpl; [done|].
      intros t. repeat split; try lia. intros [e'|[]]; simpl; [|done].
      destruct (negb (code e' =? "ENOENT")%string); simpl; [done|].
      intros []; simpl; done.
Qed.

(** ** The invariant *)

Lemma Inv_init now0 disk0 : Inv (init now0 disk0).
Proof.
  split; simpl; try done.
  - intros d. unfold writesFor, renamesFor, countFor. simpl. lia.
Qed.

Lemma Inv_frame st st' :
  heap st' = heap st → locker st' = locker st → trace st' = trace st →
  Inv st → Inv st'.
Proof.
  intros Hh Hl Ht [H1 H2 H3 H4 H5].
  split; rewrite ?Hh, ?Hl, ?Ht; done.
Qed.

Lemma Inv_Stepped st e st' : Inv st → Stepped st e st' → Inv st'.
Proof.
  intros HI Hs. pose proof HI as [Hown Hfresh Hbud Honce Htar].
  destruct Hs as [cafsDir buffer fileDest mode integrity p Hl
                 |cafsDir buffer fileDest mode integrity d body p Hl
                 |p fault d o k Hp r
                 |p fault _
                 |ms
                 |path f].
  - (* a call that finds the destination in the locker *)
    split; simpl; try done.
    + intros q d c [H|[_ H]]%lookup_app_Some; [by eapply Hown|].
      by destruct (q - length (heap st)) as [|[|]].
    + intros q d c [H|[_ H]]%lookup_app_Some; [by eapply Hbud|].
      by destruct (q - length (heap st)) as [|[|]].
  - (* a call for a new destination *)
    assert (Hd : tagged d (trace st) = []) by by apply Hfresh.
    destruct (advance_budget d 1 1 (now st) (disk st) body (trace st))
      as (Hw & Hr & Hcell).
    { apply writeBody_within. }
    { unfold writesFor. rewrite countFor_fresh by done. lia. }
    { unfold renamesFor. rewrite countFor_fresh by done. lia. }
    destruct (started_budget d 1 1 (now st) (disk st) body (writeBody_within _ _ _ _))
      as [Ht _].
    clearbody body.
    assert (Hne : ∀ q d' c, heap st !! q = Some (Suspended d' c) → d' ≠ d).
    { intros q d' c H ->. apply Hown in H. congruence. }
    split; simpl.
    + intros q d' c [H|[Hq H]]%lookup_app_Some.
      * pose proof (Hne _ _ _ H). rewrite lookup_insert_ne by done. by eapply Hown.
      * destruct (q - length (heap st)) as [|[|]] eqn:E; simpl in H; simplify_eq.
        destruct (Hcell _ _ H) as [-> _].
        replace q with p by (unfold p; lia). by rewrite lookup_insert_eq.
    + intros d' H. destruct (decide (d' = d)) as [->|Hdd].
      * by rewrite lookup_insert_eq in H.
      * rewrite lookup_insert_ne in H by done.
        by rewrite tagged_app, tagged_map_other, app_nil_r; [apply Hfresh|].
    + intros q d' c [H|[Hq H]]%lookup_app_Some.
      * pose proof (Hne _ _ _ H) as Hdd. pose proof (Hbud _ _ _ H) as Hb.
        destruct c as [| | |o k]; try done. simpl in *.
        destruct Hb as (w & r & Hk & Hw' & Hr'). exists w, r.
        unfold writesFor, renamesFor in *. by rewrite !countFor_other.
      * destruct (q - length (heap st)) as [|[|]] eqn:E; simpl in H; simplify_eq.
        by destruct (Hcell _ _ H) as [-> ?].
    + intros d'. destruct (decide (d' = d)) as [->|Hdd]; [done|].
      unfold writesFor, renamesFor. rewrite !countFor_other by done. apply Honce.
    + apply Forall_app. split; [done|].
      apply Forall_map. by eapply Forall_impl.
  - (* the awaited operation of [p] completes *)
    pose proof (Hbud _ _ _ Hp) as (w & r' & Hk & Hw & Hr).
    pose proof (Hown _ _ _ Hp) as Hlp.
    pose proof (lookup_lt_Some _ _ _ Hp) as Hlt.
    destruct (advance_budget d w r' (now st) r.2 (k r.1) (trace st) (Hk _) Hw Hr)
      as (Hw' & Hr'' & Hcell).
    assert (Hne : ∀ q d' c, q ≠ p → heap st !! q = Some (Suspended d' c) → d' ≠ d).
    { intros q d' c Hq H ->. apply Hown in H. congruence. }
    split; simpl.
    + intros q d' c H. destruct (decide (q = p)) as [->|Hq].
      * rewrite list_lookup_insert_eq in H by done. simplify_eq.
        by destruct (Hcell _ _ H) as [-> _].
      * rewrite list_lookup_insert_ne in H by done. by eapply Hown.
    + intros d' H. assert (d' ≠ d) by congruence.
      by rewrite tagged_app, tagged_map_other, app_nil_r; [apply Hfresh|].
    + intros q d' c H. destruct (decide (q = p)) as [->|Hq].
      * rewrite list_lookup_insert_eq in H by done. simplify_eq.
        by destruct (Hcell _ _ H) as [-> ?].
      * rewrite list_lookup_insert_ne in H by done.
        pose proof (Hne _ _ _ Hq H) as Hdd. pose proof (Hbud _ _ _ H) as Hb.
        destruct c as [| | |o' k']; try done. simpl in *.
        destruct Hb as (w0 & r0 & Hk0 & Hw0 & Hr0). exists w0, r0.
        unfold writesFor, renamesFor in *. by rewrite !countFor_other.
    + intros d'. destruct (decide (d' = d)) as [->|Hdd]; [done|].
      unfold writesFor, renamesFor. rewrite !countFor_other by done. apply Honce.
    + apply Forall_app. split; [done|].
      destruct (started_budget d w r' (now st) r.2 (k r.1) (Hk _)) as [Ht _].
      apply Forall_map. by eapply Forall_impl.
  - done.
  - by apply (Inv_frame st).
  - by apply (Inv_frame st).
Qed.

Lemma Inv_step st e : Inv st → Inv (step st e).
Proof. intros H. eapply Inv_Stepped; [done|apply step_Stepped]. Qed.

Lemma Inv_run st evs : Inv st → Inv (run st evs).
Proof.
  revert st. induction evs as [|e evs IH]; intros st H; [done|].
  simpl. apply IH. by apply Inv_step.
Qed.

(** ** What a step leaves alone *)

Lemma Stepped_locker st e st' d p :
  Stepped st e st' → locker st !! d = Some p → locker st' !! d = Some p.
Proof.
  intros Hs Hl. destruct Hs; simpl; try done.
  rewrite lookup_insert_ne; [done|]. intros <-. congruence.
Qed.

Lemma step_locker st e d p :
  locker st !! d = Some p → locker (step st e) !! d = Some p.
Proof. intros H. eapply Stepped_locker; [apply step_Stepped|done]. Qed.

Lemma run_locker st evs d p :
  locker st !! d = Some p → locker (run st evs) !! d = Some p.
Proof.
  revert st. induction evs as [|e evs IH]; intros st H; [done|].
  simpl. by apply IH, step_locker.
Qed.

(** A cell changes only when its own closure is resumed. *)
Lemma Stepped_cell st e st' q c :
  Stepped st e st' →
  heap st !! q = Some c →
  (∀ f, e ≠ Resume q f) ∨ (∀ d c', c ≠ Suspended d c') →
  heap st' !! q = Some c.
Proof.
  intros Hs Hq Hor. destruct Hs as [| |p fault d o k Hp r| | |]; simpl; try done.
  - by apply lookup_app_l_Some.
  - by apply lookup_app_l_Some.
  - destruct (decide (p = q)) as [->|Hne].
    + destruct Hor as [H|H]; [by destruct (H fault)|].
      rewrite Hq in Hp. injection Hp as ->. by destruct (H d (Await o k)).
    + by rewrite list_lookup_insert_ne.
Qed.

Lemma step_cell_settled st e q o :
  heap st !! q = Some (Settled o) → heap (step st e) !! q = Some (Settled o).
Proof.
  intros H. eapply Stepped_cell; [apply step_Stepped|done|by right].
Qed.

Lemma step_cell_outer st e q p :
  heap st !! q = Some (Outer p) → heap (step st e) !! q = Some (Outer p).
Proof.
  intros H. eapply Stepped_cell; [apply step_Stepped|done|by right].
Qed.

Lemma run_cell_settled st evs q o :
  heap st !! q = Some (Settled o) → heap (run st evs) !! q = Some (Settled o).
Proof.
  revert st. induction evs as [|e evs IH]; intros st H; [done|].
  simpl. by apply IH, step_cell_settled.
Qed.

Lemma run_cell_outer st evs q p :
  heap st !! q = Some (Outer p) → heap (run st evs) !! q = Some (Outer p).
Proof.
  revert st. induction evs as [|e evs IH]; intros st H; [done|].
  simpl. by apply IH, step_cell_outer.
Qed.

Lemma run_cell_noResume st evs q c :
  noResume q evs = true → heap st !! q = Some c → heap (run st evs) !! q = Some c.
Proof.
  revert st. induction evs as [|e evs IH]; intros st Hn H; [done|].
  simpl in Hn. apply andb_true_iff in Hn as [He Hn].
  simpl. apply IH; [done|].
  eapply Stepped_cell; [apply step_Stepped|done|]. left. intros f ->.
  simpl in He. by rewrite Nat.eqb_refl in He.
Qed.

Lemma run_app st evs evs' : run st (evs ++ evs') = run (run st evs) evs'.
Proof. apply fold_left_app. Qed.

(** The clock never goes back. *)
Lemma step_now st e : (now st ≤ now (step st e))%N.
Proof.
  pose proof (step_Stepped st e) as Hs.
  destruct Hs; simpl; lia.
Qed.

Lemma run_now st evs : (now st ≤ now (run st evs))%N.
Proof.
  revert st. induction evs as [|e evs IH]; intros st; simpl; [lia|].
  pose proof (step_now st e). pose proof (IH (step st e)). lia.
Qed.

(** Only the closure of a destination adds effects for it. *)
Lemma Stepped_tagged st e st' d p :
  Inv st → Stepped st e st' →
  locker st !! d = Some p →
  (∀ f, e ≠ Resume p f) ∨ isSuspended st p = false →
  tagged d (trace st') = tagged d (trace st).
Proof.
  intros HI Hs Hl Hor.
  destruct Hs as [|cafsDir buffer fileDest mode integrity d' body p' Hl'
                 |p' fault d' o k Hp r| | |]; cbn [trace setNow setDisk]; try done.
  - rewrite tagged_app, tagged_map_other, app_nil_r; [done|]. congruence.
  - rewrite tagged_app, tagged_map_other, app_nil_r; [done|].
    intros ->. pose proof (inv_owner _ HI _ _ _ Hp) as Hl'.
    assert (p' = p) as -> by congruence.
    destruct Hor as [H|H]; [by destruct (H fault)|].
    unfold isSuspended in H. by rewrite Hp in H.
Qed.

Lemma outcome_outer st q p :
  heap st !! q = Some (Outer p) → outcome st q = cellOutcome st p.
Proof. unfold outcome. by intros ->. Qed.

Lemma cellOutcome_settled st p o :
  heap st !! p = Some (Settled o) → cellOutcome st p = Some o.
Proof. unfold cellOutcome. by intros ->. Qed.

(** What a call returns: a promise resolved with the promise of the
    locker, which is there when the call returns. *)
Lemma writeBufferToCafs_returns cafsDir buffer fileDest mode integrity st :
  let cs := writeBufferToCafs cafsDir buffer fileDest mode integrity st in
  ∃ p, heap cs.2 !! cs.1 = Some (Outer p)
       ∧ locker cs.2 !! Path.join cafsDir fileDest = Some p
       ∧ (∀ p', locker st !! Path.join cafsDir fileDest = Some p' → p' = p).
Proof.
  intros cs. unfold cs.
  destruct (locker st !! Path.join cafsDir fileDest) as [p|] eqn:E.
  - rewrite (writeBufferToCafs_cached _ _ _ _ _ _ p) by done. simpl.
    exists p. split; [|split; [done|congruence]].
    by rewrite lookup_app_r, Nat.sub_diag.
  - rewrite writeBufferToCafs_fresh by done. simpl.
    exists (length (heap st)). split; [|split; [|done]].
    + rewrite lookup_app_r by lia. by replace (S _ - _) with 1 by lia.
    + by rewrite lookup_insert_eq.
Qed.

Lemma renamesTo_tagged d tr :
  Forall (λ x, targets x.1 x.2) tr → renamesTo d tr = renamesFor d tr.
Proof.
  unfold renamesTo, renamesFor, countFor, tagged.
  induction 1 as [|[tag e] tr Hx _ IH]; [done|]. simpl in Hx.
  destruct (decide (tag = d)) as [->|Hne].
  - rewrite (filter_cons_True (λ x, x.1 = d)) by done.
    destruct (isRename e) eqn:E.
    + destruct e as [|[]]; try done. destruct Hx as [_ ->].
      rewrite !filter_cons_True; [|done|simpl; by rewrite bool_decide_true].
      simpl. by rewrite IH.
    + rewrite !filter_cons_False; [done|simpl; congruence|].
      simpl. by destruct e as [|[]].
  - rewrite (filter_cons_False (λ x, x.1 = d)) by done.
    rewrite filter_cons_False; [done|]. simpl.
    destruct e as [|[]]; try done. destruct Hx as [_ ->].
    simpl. by rewrite bool_decide_false.
Qed.

(** ** The write coordinator *)

(** C1.  Two calls of one session for the same destination, with any events
    before, between and after them: both callers await the promise that
    the locker holds when the first call returns, so they get the same
    outcome; the temporary file of the destination is written at most once
    and renamed at most once, and at most one rename has the destination as
    its target. *)
Theorem calls_share_one_write now0 disk0 evs1 evs2 evs3
    dir1 buf1 key1 mode1 int1 dir2 buf2 key2 mode2 int2 :
  Path.join dir1 key1 = Path.join dir2 key2 →
  let d := Path.join dir1 key1 in
  let s1 := run (init now0 disk0) evs1 in
  let c1 := writeBufferToCafs dir1 buf1 key1 mode1 int1 s1 in
  let s2 := run c1.2 evs2 in
  let c2 := writeBufferToCafs dir2 buf2 key2 mode2 int2 s2 in
  let s3 := run c2.2 evs3 in
  outcome s3 c1.1 = outcome s3 c2.1
  ∧ writesFor d (trace s3) ≤ 1
  ∧ renamesFor d (trace s3) ≤ 1
  ∧ renamesTo d (trace s3) ≤ 1
  ∧ ∃ p, locker c1.2 !! d = Some p
         ∧ heap s3 !! c1.1 = Some (Outer p)
         ∧ heap s3 !! c2.1 = Some (Outer p).
Proof.
  intros Hd d s1 c1 s2 c2 s3.
  destruct (writeBufferToCafs_returns dir1 buf1 key1 mode1 int1 s1) as (p & Hq1 & Hl1 & _).
  destruct (writeBufferToCafs_returns dir2 buf2 key2 mode2 int2 s2) as (p2 & Hq2 & _ & Hsame).
  fold c1 in Hq1, Hl1. fold c2 in Hq2. fold d in Hl1.
  assert (p2 = p) as ->.
  { symmetry. apply Hsame. rewrite <- Hd. by apply run_locker. }
  assert (H1 : heap s3 !! c1.1 = Some (Outer p)).
  { apply run_cell_outer.
    apply (step_cell_outer s2 (Call dir2 buf2 key2 mode2 int2)).
    by apply run_cell_outer. }
  assert (H2 : heap s3 !! c2.1 = Some (Outer p)) by by apply run_cell_outer.
  assert (HI : Inv s3).
  { apply Inv_run. apply (Inv_step s2 (Call dir2 buf2 key2 mode2 int2)).
    apply Inv_run. apply (Inv_step s1 (Call dir1 buf1 key1 mode1 int1)).
    apply Inv_run, Inv_init. }
  split; [by rewrite !(outcome_outer _ _ p)|].
  destruct (inv_once _ HI d) as [Hw Hr].
  repeat split; try done.
  - by rewrite renamesTo_tagged by apply HI.
  - by exists p.
Qed.

(** C9.  Once the locker has an entry for a path, a call whose directory
    and key join to that path allocates the promise it returns and does
    nothing else: the result is the same whatever the buffer, the mode and
    the integrity descriptor, no effect is started and the disk is
    untouched. *)
Theorem locker_keyed_on_path st evs d p dirA bufA keyA modeA intA dirB bufB keyB modeB intB :
  locker st !! d = Some p →
  Path.join dirA keyA = d →
  Path.join dirB keyB = d →
  let s := run st evs in
  writeBufferToCafs dirA bufA keyA modeA intA s
  = writeBufferToCafs dirB bufB keyB modeB intB s
  ∧ writeBufferToCafs dirA bufA keyA modeA intA s
    = (length (heap s),
       {| now := now s; disk := disk s; locker := locker s;
          heap := heap s ++ [Outer p]; trace := trace s |})
  ∧ outcome (writeBufferToCafs dirA bufA keyA modeA intA s).2
            (writeBufferToCafs dirA bufA keyA modeA intA s).1
    = cellOutcome s p.
Proof.
  intros Hl HA HB s.
  assert (Hs : locker s !! d = Some p) by by apply run_locker.
  rewrite (writeBufferToCafs_cached dirA _ keyA _ _ s p) by by rewrite HA.
  rewrite (writeBufferToCafs_cached dirB _ keyB _ _ s p) by by rewrite HB.
  repeat split. unfold outcome, cellOutcome. simpl.
  rewrite lookup_app_r, Nat.sub_diag by done. simpl.
  destruct (heap s !! p) as [c|] eqn:E.
  - by rewrite (lookup_app_l_Some _ _ _ _ E).
  - apply lookup_ge_None in E.
    destruct (decide (p = length (heap s))) as [->|Hne].
    + by rewrite lookup_app_r, Nat.sub_diag by done.
    + rewrite lookup_ge_None_2; [done|]. rewrite length_app. simpl. lia.
Qed.

(** ** The closure, await by await *)

Lemma resume_writeBody fault t dk buffer fileDest mode integrity :
  resume fault t dk (writeBody buffer fileDest mode integrity) =
  match stat fault dk fileDest with
  | (inl _, dk') => (writePath buffer fileDest mode, dk')
  | (inr s, dk') => (afterStat buffer fileDest mode integrity s, dk')
  end.
Proof.
  unfold resume, writeBody, existsSame. simpl.
  by destruct (stat fault dk fileDest) as [[e|s] dk'].
Qed.

Lemma resume_afterStat fault t dk buffer fileDest mode integrity s :
  resume fault t dk (afterStat buffer fileDest mode integrity s) =
  (if verifyFileIntegrity fault dk fileDest
        {| expectedSize := size s; expectedIntegrity := integrity |}
   then Ret t
   else writePath buffer fileDest mode, dk).
Proof.
  unfold resume, afterStat. simpl.
  by destruct (verifyFileIntegrity _ _ _ _).
Qed.

Lemma resume_writePath fault t dk buffer fileDest mode :
  resume fault t dk (writePath buffer fileDest mode) =
  match writeFile fault dk (pathTemp fileDest) buffer mode with
  | (inl e, dk') => (Throw e, dk')
  | (inr _, dk') => (commitPath (pathTemp fileDest) fileDest t, dk')
  end.
Proof.
  unfold resume, writePath. simpl.
  by destruct (writeFile fault dk _ buffer mode) as [[e|[]] dk'].
Qed.

Lemma resume_optimisticRenameOverwrite fault t dk temp fileDest :
  resume fault t dk (optimisticRenameOverwrite temp fileDest) =
  match renameOverwrite fault dk temp fileDest with
  | (inl e, dk') =>
      (if (code e =? "ENOENT")%string && existsSync dk' fileDest
       then Ret tt else Throw e, dk')
  | (inr _, dk') => (Ret tt, dk')
  end.
Proof.
  unfold resume, optimisticRenameOverwrite. simpl.
  destruct (renameOverwrite fault dk temp fileDest) as [[e|[]] dk']; simpl; [|done].
  destruct (code e =? "ENOENT")%string; simpl; [|done].
  by destruct (existsSync dk' fileDest).
Qed.

Lemma resume_commitPath fault t dk temp fileDest birthtimeMs :
  resume fault t dk (commitPath temp fileDest birthtimeMs) =
  match renameOverwrite fault dk temp fileDest with
  | (inl e, dk') =>
      (if (code e =? "ENOENT")%string && existsSync dk' fileDest
       then Ret birthtimeMs else Throw e, dk')
  | (inr _, dk') => (Ret birthtimeMs, dk')
  end.
Proof.
  unfold resume, commitPath, optimisticRenameOverwrite. simpl.
  destruct (renameOverwrite fault dk temp fileDest) as [[e|[]] dk']; simpl; [|done].
  destruct (code e =? "ENOENT")%string; simpl; [|done].
  by destruct (existsSync dk' fileDest).
Qed.

Lemma renameOverwrite_fails fault dk temp fileDest e :
  (renameOverwrite fault dk temp fileDest).1 = inl e →
  renameOverwrite fault dk temp fileDest = (inl e, dk).
Proof.
  unfold renameOverwrite. destruct fault; [by intros [= ->]|].
  destruct (dk !! temp); [done|]. by intros [= ->].
Qed.

(** The cell of [p] and the disk after the operation awaited by [p]
    completes. *)
Lemma step_resume st p fileDest c fault :
  heap st !! p = Some (Suspended fileDest c) →
  (∃ o k, c = Await o k) →
  heap (step st (Resume p fault)) !! p
    = Some (cellOf fileDest (resume fault (now st) (disk st) c).1)
  ∧ disk (step st (Resume p fault)) = (resume fault (now st) (disk st) c).2
  ∧ now (step st (Resume p fault)) = now st
  ∧ locker (step st (Resume p fault)) = locker st.
Proof.
  intros Hp Hc. rewrite (step_resume_eq st p fileDest c fault Hp Hc). simpl.
  split; [|done]. apply list_lookup_insert_eq. by eapply lookup_lt_Some.
Qed.

Lemma writePath_await buffer fileDest mode : ∃ o k, writePath buffer fileDest mode = Await o k.
Proof. by eexists _, _. Qed.

Lemma commitPath_await temp fileDest b : ∃ o k, commitPath temp fileDest b = Await o k.
Proof. by eexists _, _. Qed.

Lemma writeBody_await buffer fileDest mode integrity :
  ∃ o k, writeBody buffer fileDest mode integrity = Await o k.
Proof. by eexists _, _. Qed.

Lemma afterStat_await buffer fileDest mode integrity s :
  ∃ o k, afterStat buffer fileDest mode integrity s = Await o k.
Proof. by eexists _, _. Qed.

(** C2.  When [renameOverwrite] fails with [err]: if the code of [err] is
    ENOENT and a file is at the destination, [optimisticRenameOverwrite]
    returns; in every other case, also when the code is ENOENT and nothing
    is at the destination, it throws [err] again. *)
Theorem optimisticRenameOverwrite_tolerates_race fault t dk temp fileDest err :
  (renameOverwrite fault dk temp fileDest).1 = inl err →
  (code err = "ENOENT" → is_Some (dk !! fileDest) →
     (resume fault t dk (optimisticRenameOverwrite temp fileDest)).1 = Ret tt)
  ∧ (code err ≠ "ENOENT" ∨ dk !! fileDest = None →
     (resume fault t dk (optimisticRenameOverwrite temp fileDest)).1 = Throw err).
Proof.
  intros Hr. apply renameOverwrite_fails in Hr.
  rewrite resume_optimisticRenameOverwrite, Hr. simpl. split.
  - intros -> Hd. unfold existsSync. by rewrite bool_decide_true.
  - intros [Hc|Hd].
    + apply String.eqb_neq in Hc. by rewrite Hc.
    + unfold existsSync. rewrite bool_decide_false, andb_false_r; [done|].
      rewrite Hd. by intros [].
Qed.

Lemma stat_absent fault dk filename :
  dk !! filename = None → ∃ err, (stat fault dk filename).1 = inl err.
Proof. intros H. unfold stat. rewrite H. destruct fault; by eexists. Qed.

Lemma stat_fails fault dk filename err :
  (stat fault dk filename).1 = inl err → stat fault dk filename = (inl err, dk).
Proof.
  unfold stat. destruct fault; [by intros [= ->]|].
  destruct (dk !! filename); [done|]. by intros [= ->].
Qed.

(** C8.  When [fs.stat] fails, as it does when the file is absent,
    [existsSame] returns [false] and does not throw; the closure of
    [writeBufferToCafs] then goes on to write the temporary file, and its
    promise stays pending. *)
Theorem existsSame_folds_stat_errors fault t dk filename integrity :
  (dk !! filename = None ∨ ∃ err, (stat fault dk filename).1 = inl err) →
  resume fault t dk (existsSame filename integrity) = (Ret false, dk)
  ∧ (∀ buffer mode,
       resume fault t dk (writeBody buffer filename mode integrity)
       = (writePath buffer filename mode, dk))
  ∧ (∀ st p buffer mode,
       heap st !! p = Some (Suspended filename (writeBody buffer filename mode integrity)) →
       now st = t → disk st = dk →
       heap (step st (Resume p fault)) !! p
       = Some (Suspended filename (writePath buffer filename mode))).
Proof.
  intros H.
  assert (∃ err, stat fault dk filename = (inl err, dk)) as [err Hs].
  { destruct H as [H|[err H]]; [apply (stat_absent fault) in H as [err H]|];
      exists err; by apply stat_fails. }
  split; [|split].
  - unfold resume, existsSame. simpl. by rewrite Hs.
  - intros buffer mode. by rewrite resume_writeBody, Hs.
  - intros st p buffer mode Hp <- <-.
    destruct (step_resume st p _ _ fault Hp (writeBody_await _ _ _ _)) as (-> & _).
    by rewrite resume_writeBody, Hs.
Qed.

(** C10.  Once the promise that the locker holds for a destination is
    rejected with [e], a call for that destination, after any further
    events, starts no effect and leaves the disk alone, and its caller
    gets [e], then and ever after. *)
Theorem failed_write_is_cached st evs evs' d p e cafsDir buffer fileDest mode integrity :
  locker st !! d = Some p →
  heap st !! p = Some (Settled (Rejected e)) →
  Path.join cafsDir fileDest = d →
  let s := run st evs in
  let cs := writeBufferToCafs cafsDir buffer fileDest mode integrity s in
  outcome cs.2 cs.1 = Some (Rejected e)
  ∧ trace cs.2 = trace s
  ∧ disk cs.2 = disk s
  ∧ locker cs.2 !! d = Some p
  ∧ outcome (run cs.2 evs') cs.1 = Some (Rejected e).
Proof.
  intros Hl Hp Hd s cs.
  assert (Hls : locker s !! d = Some p) by by apply run_locker.
  assert (Hps : heap s !! p = Some (Settled (Rejected e))) by by apply run_cell_settled.
  assert (Hcs : cs = (length (heap s),
    {| now := now s; disk := disk s; locker := locker s;
       heap := heap s ++ [Outer p]; trace := trace s |})).
  { unfold cs. apply writeBufferToCafs_cached. by rewrite Hd. }
  assert (Hq : heap cs.2 !! cs.1 = Some (Outer p)).
  { rewrite Hcs. simpl. by rewrite lookup_app_r, Nat.sub_diag. }
  assert (Hp' : heap cs.2 !! p = Some (Settled (Rejected e))).
  { rewrite Hcs. simpl. by apply lookup_app_l_Some. }
  repeat split.
  - rewrite (outcome_outer _ _ p) by done. by apply cellOutcome_settled.
  - by rewrite Hcs.
  - by rewrite Hcs.
  - by rewrite Hcs.
  - rewrite (outcome_outer _ _ p) by by apply run_cell_outer.
    by apply cellOutcome_settled, run_cell_settled.
Qed.

Lemma cellOutcome_inv st p o :
  cellOutcome st p = Some o → heap st !! p = Some (Settled o).
Proof.
  unfold cellOutcome. destruct (heap st !! p) as [[]|]; try done. by intros [= ->].
Qed.

Lemma writeBufferToCafs_resolved cafsDir buffer fileDest mode integrity st p o :
  locker st !! Path.join cafsDir fileDest = Some p →
  heap st !! p = Some (Settled o) →
  let cs := writeBufferToCafs cafsDir buffer fileDest mode integrity st in
  outcome cs.2 cs.1 = Some o
  ∧ trace cs.2 = trace st ∧ disk cs.2 = disk st
  ∧ now cs.2 = now st ∧ locker cs.2 = locker st.
Proof.
  intros Hl Hp cs. unfold cs.
  rewrite (writeBufferToCafs_cached _ _ _ _ _ _ p) by done. simpl.
  repeat split. unfold outcome. simpl.
  rewrite lookup_app_r, Nat.sub_diag by done. simpl.
  apply cellOutcome_settled. simpl. by apply lookup_app_l_Some.
Qed.

(** C5.  A call for a destination whose promise in the locker is fulfilled
    with [t] gives its caller [t]; it starts no effect, not even the
    [fs.stat] of the skip check, and leaves the disk alone.  In particular,
    once a first call has given [T1] to its caller, the same call again
    gives [T1]. *)
Theorem resolved_entry_short_circuits cafsDir buffer fileDest mode integrity :
  let d := Path.join cafsDir fileDest in
  (∀ st p t,
     locker st !! d = Some p →
     heap st !! p = Some (Settled (Fulfilled t)) →
     let cs := writeBufferToCafs cafsDir buffer fileDest mode integrity st in
     outcome cs.2 cs.1 = Some (Fulfilled t)
     ∧ trace cs.2 = trace st ∧ disk cs.2 = disk st)
  ∧ (∀ st evs T1,
       let c1 := writeBufferToCafs cafsDir buffer fileDest mode integrity st in
       let s := run c1.2 evs in
       let c2 := writeBufferToCafs cafsDir buffer fileDest mode integrity s in
       outcome s c1.1 = Some (Fulfilled T1) →
       outcome c2.2 c2.1 = Some (Fulfilled T1)
       ∧ trace c2.2 = trace s ∧ disk c2.2 = disk s).
Proof.
  intros d. split.
  - intros st p t Hl Hp cs.
    by destruct (writeBufferToCafs_resolved cafsDir buffer fileDest mode integrity
                   st p _ Hl Hp) as (? & ? & ? & _).
  - intros st evs T1 c1 s c2 H1.
    destruct (writeBufferToCafs_returns cafsDir buffer fileDest mode integrity st)
      as (p & Hq & Hl & _). fold c1 in Hq, Hl.
    assert (Hls : locker s !! d = Some p) by by apply run_locker.
    assert (Hqs : heap s !! c1.1 = Some (Outer p)) by by apply run_cell_outer.
    rewrite (outcome_outer _ _ p) in H1 by done. apply cellOutcome_inv in H1.
    by destruct (writeBufferToCafs_resolved cafsDir buffer fileDest mode integrity
                   s p _ Hls H1) as (? & ? & ? & _).
Qed.

Lemma step_fails_fatally st p fault e :
  failsFatally st p fault e →
  heap (step st (Resume p fault)) !! p = Some (Settled (Rejected e)).
Proof.
  intros [(fileDest & buffer & mode & Hp & ->)|(fileDest & b & Hp & Hr & Hnot)].
  - destruct (step_resume st p _ _ (Some e) Hp (writePath_await _ _ _)) as (-> & _).
    by rewrite resume_writePath.
  - destruct (step_resume st p _ _ fault Hp (commitPath_await _ _ _)) as (-> & _).
    rewrite resume_commitPath, (renameOverwrite_fails _ _ _ _ _ Hr). simpl.
    destruct (code e =? "ENOENT")%string eqn:Ec; [|done].
    destruct (existsSync (disk st) fileDest) eqn:Ex; [|done].
    apply String.eqb_eq in Ec. by destruct Hnot.
Qed.

(** C6.  Two callers of one destination, [p] the promise the locker holds
    for it.  When the write of [p] fails with [e] (the temporary file cannot
    be written, or the rename fails otherwise than by the tolerated race),
    both callers get [e], whatever happens next. *)
Theorem fatal_error_reaches_every_caller st evs1 evs2 evs3 p fault e
    dir1 buf1 key1 mode1 int1 dir2 buf2 key2 mode2 int2 :
  Path.join dir1 key1 = Path.join dir2 key2 →
  let d := Path.join dir1 key1 in
  let c1 := writeBufferToCafs dir1 buf1 key1 mode1 int1 st in
  let s1 := run c1.2 evs1 in
  let c2 := writeBufferToCafs dir2 buf2 key2 mode2 int2 s1 in
  let s2 := run c2.2 evs2 in
  locker s2 !! d = Some p →
  failsFatally s2 p fault e →
  let s3 := run (step s2 (Resume p fault)) evs3 in
  outcome s3 c1.1 = Some (Rejected e) ∧ outcome s3 c2.1 = Some (Rejected e).
Proof.
  intros Hd d c1 s1 c2 s2 Hl Hf s3.
  destruct (writeBufferToCafs_returns dir1 buf1 key1 mode1 int1 st) as (p1 & Hq1 & Hl1 & _).
  destruct (writeBufferToCafs_returns dir2 buf2 key2 mode2 int2 s1) as (p2 & Hq2 & Hl2 & _).
  fold c1 in Hq1, Hl1. fold c2 in Hq2, Hl2. fold d in Hl1. rewrite <- Hd in Hl2. fold d in Hl2.
  assert (p1 = p) as ->.
  { apply (run_locker _ evs1) in Hl1. fold s1 in Hl1.
    apply (step_locker _ (Call dir2 buf2 key2 mode2 int2)) in Hl1.
    apply (run_locker _ evs2) in Hl1. change (locker s2 !! d = Some p1) in Hl1. congruence. }
  assert (p2 = p) as ->.
  { apply (run_locker _ evs2) in Hl2. fold s2 in Hl2. congruence. }
  assert (Hp : heap s3 !! p = Some (Settled (Rejected e))).
  { by apply run_cell_settled, step_fails_fatally. }
  assert (H1 : heap s3 !! c1.1 = Some (Outer p)).
  { apply run_cell_outer, step_cell_outer, run_cell_outer.
    apply (step_cell_outer s1 (Call dir2 buf2 key2 mode2 int2)).
    by apply run_cell_outer. }
  assert (H2 : heap s3 !! c2.1 = Some (Outer p)).
  { by apply run_cell_outer, step_cell_outer, run_cell_outer. }
  rewrite !(outcome_outer _ _ p) by done.
  split; by apply cellOutcome_settled.
Qed.

(** ** The steps of the closure, in full *)

Lemma step_writeBody_present st p d buffer mode integrity f :
  heap st !! p = Some (Suspended d (writeBody buffer d mode integrity)) →
  disk st !! d = Some f →
  step st (Resume p None) =
  {| now := now st; disk := disk st; locker := locker st;
     heap := <[p := Suspended d (afterStat buffer d mode integrity
                                   {| size := N.of_nat (length (content f)) |})]> (heap st);
     trace := trace st ++
       [(d, EAwait (VerifyFileIntegrity d
                      {| expectedSize := N.of_nat (length (content f));
                         expectedIntegrity := integrity |}))] |}.
Proof.
  intros Hp Hd.
  rewrite (step_resume_eq _ _ _ _ None Hp (writeBody_await _ _ _ _)).
  unfold writeBody, existsSame, resume. simpl. unfold stat. by rewrite Hd.
Qed.

Lemma step_afterStat_same st p d buffer mode integrity s :
  heap st !! p = Some (Suspended d (afterStat buffer d mode integrity s)) →
  verifyFileIntegrity None (disk st) d
    {| expectedSize := size s; expectedIntegrity := integrity |} = true →
  step st (Resume p None) =
  {| now := now st; disk := disk st; locker := locker st;
     heap := <[p := Settled (Fulfilled (now st))]> (heap st);
     trace := trace st ++ [(d, ESync DateNow)] |}.
Proof.
  intros Hp Hv.
  rewrite (step_resume_eq _ _ _ _ None Hp (afterStat_await _ _ _ _ _)).
  unfold afterStat, resume. cbn -[verifyFileIntegrity]. by rewrite Hv.
Qed.

Lemma step_writePath_written st p d buffer mode :
  heap st !! p = Some (Suspended d (writePath buffer d mode)) →
  step st (Resume p None) =
  {| now := now st;
     disk := <[pathTemp d := {| content := buffer; fmode := mode |}]> (disk st);
     locker := locker st;
     heap := <[p := Suspended d (commitPath (pathTemp d) d (now st))]> (heap st);
     trace := trace st ++
       [(d, ESync DateNow); (d, EAwait (RenameOverwrite (pathTemp d) d))] |}.
Proof.
  intros Hp.
  by rewrite (step_resume_eq _ _ _ _ None Hp (writePath_await _ _ _)).
Qed.

Lemma run_tagged_noResume st evs d p :
  Inv st → locker st !! d = Some p → noResume p evs = true →
  tagged d (trace (run st evs)) = tagged d (trace st).
Proof.
  revert st. induction evs as [|e evs IH]; intros st HI Hl Hn; [done|].
  simpl in Hn. apply andb_true_iff in Hn as [He Hn]. simpl.
  rewrite IH; [|by apply Inv_step|by apply step_locker|done].
  eapply Stepped_tagged; [done|apply step_Stepped|done|].
  left. intros f ->. simpl in He. by rewrite Nat.eqb_refl in He.
Qed.

Lemma run_tagged_settled st evs d p o :
  Inv st → locker st !! d = Some p → heap st !! p = Some (Settled o) →
  tagged d (trace (run st evs)) = tagged d (trace st).
Proof.
  revert st. induction evs as [|e evs IH]; intros st HI Hl Hp; [done|].
  simpl. rewrite IH; [|by apply Inv_step|by apply step_locker|by apply step_cell_settled].
  eapply Stepped_tagged; [done|apply step_Stepped|done|].
  right. unfold isSuspended. by rewrite Hp.
Qed.

Lemma Inv_reachable now0 disk0 evs : Inv (run (init now0 disk0) evs).
Proof. apply Inv_run, Inv_init. Qed.

(** C7.  A call of [writeBufferToCafs] for a destination whose closure is
    on the write path, waiting for the write of the temporary file.  When
    that write completes, the file holds the buffer, the closure reads the
    clock, and only then starts the rename, holding the value read; the
    promise returned to the caller is still pending then, and stays so until
    the rename completes.  Whenever the rename completes afterwards, the
    caller is given no other time than the one read before the rename: it
    gets that time when the rename succeeds, and that time when the rename
    fails by the tolerated race, whatever the clock shows by then; it gets
    the error of the rename otherwise. *)
Theorem birthtime_captured_before_commit st evs0 p
    cafsDir callBuffer fileDest callMode integrity buffer mode :
  let d := Path.join cafsDir fileDest in
  let temp := pathTemp d in
  let cs := writeBufferToCafs cafsDir callBuffer fileDest callMode integrity st in
  let s0 := run cs.2 evs0 in
  locker cs.2 !! d = Some p →
  heap s0 !! p = Some (Suspended d (writePath buffer d mode)) →
  let s1 := step s0 (Resume p None) in
  disk s1 !! temp = Some {| content := buffer; fmode := mode |}
  ∧ heap s1 !! p = Some (Suspended d (commitPath temp d (now s0)))
  ∧ trace s1 = (trace s0 ++
      [(d, ESync DateNow); (d, EAwait (RenameOverwrite temp d))])%list
  ∧ outcome s1 cs.1 = None
  ∧ ∀ evs fault evs',
      noResume p evs = true →
      let s2 := run s1 evs in
      let s3 := run (step s2 (Resume p fault)) evs' in
      (now s0 ≤ now s2)%N
      ∧ outcome s2 cs.1 = None
      ∧ (∀ v, outcome s3 cs.1 = Some (Fulfilled v) → v = now s0)
      ∧ match (renameOverwrite fault (disk s2) temp d).1 with
        | inr _ => outcome s3 cs.1 = Some (Fulfilled (now s0))
        | inl e =>
            if (code e =? "ENOENT")%string && existsSync (disk s2) d
            then outcome s3 cs.1 = Some (Fulfilled (now s0))
            else outcome s3 cs.1 = Some (Rejected e)
        end.
Proof.
  intros d temp cs s0 Hl Hp s1.
  (* the caller holds the promise of the closure *)
  destruct (writeBufferToCafs_returns cafsDir callBuffer fileDest callMode integrity st)
    as (p' & Hq & Hl' & _).
  fold cs d in Hq, Hl'. assert (p' = p) as -> by congruence.
  assert (Hq0 : heap s0 !! cs.1 = Some (Outer p)) by by apply run_cell_outer.
  assert (Hq1 : heap s1 !! cs.1 = Some (Outer p)) by by apply step_cell_outer.
  (* the completion of the write *)
  pose proof (lookup_lt_Some _ _ _ Hp) as Hlt.
  assert (Hs1 : s1 = _) by apply (step_writePath_written s0 p d buffer mode Hp).
  assert (Hcell : heap s1 !! p = Some (Suspended d (commitPath temp d (now s0)))).
  { rewrite Hs1. simpl. by apply list_lookup_insert_eq. }
  split; [|split; [done|split; [|split]]].
  - rewrite Hs1. simpl. apply lookup_insert_eq.
  - by rewrite Hs1.
  - rewrite (outcome_outer _ _ p) by done. unfold cellOutcome. by rewrite Hcell.
  - intros evs fault evs' Hn s2 s3.
    assert (Hcell2 : heap s2 !! p = Some (Suspended d (commitPath temp d (now s0))))
      by by apply run_cell_noResume.
    assert (Hq3 : heap s3 !! cs.1 = Some (Outer p))
      by by apply run_cell_outer, step_cell_outer, run_cell_outer.
    destruct (step_resume s2 p _ _ fault Hcell2 (commitPath_await _ _ _)) as (Hc3 & _).
    rewrite resume_commitPath in Hc3.
    assert (Hnow : (now s0 ≤ now s2)%N).
    { pose proof (run_now s1 evs) as H. fold s2 in H.
      replace (now s1) with (now s0) in H by by rewrite Hs1. done. }
    split; [done|]. split.
    { rewrite (outcome_outer _ _ p) by by apply run_cell_outer.
      unfold cellOutcome. by rewrite Hcell2. }
    assert (Hfin : ∀ o, heap (step s2 (Resume p fault)) !! p = Some (Settled o) →
                        outcome s3 cs.1 = Some o).
    { intros o H. rewrite (outcome_outer _ _ p) by done.
      by apply cellOutcome_settled, run_cell_settled. }
    destruct (renameOverwrite fault (disk s2) temp d) as [[e|[]] dk'] eqn:E;
      cbn [fst snd] in Hc3 |- *.
    + pose proof (renameOverwrite_fails fault (disk s2) temp d e) as Hf.
      rewrite E in Hf. injection (Hf eq_refl) as ->.
      destruct ((code e =? "ENOENT")%string && existsSync (disk s2) d);
        rewrite (Hfin _ Hc3).
      * split; [by intros v [= <-]|done].
      * split; [by intros v [=]|done].
    + rewrite (Hfin _ Hc3). split; [by intros v [= <-]|done].
Qed.

Lemma tagged_one d (e : Effect) : tagged d [(d, e)] = [(d, e)].
Proof. apply (tagged_map_same d [e]). Qed.

Lemma lookup_snoc2_fst {A} (l : list A) a b : (l ++ [a; b])%list !! length l = Some a.
Proof. by rewrite lookup_app_r, Nat.sub_diag. Qed.

Lemma lookup_snoc2_snd {A} (l : list A) a b : (l ++ [a; b])%list !! S (length l) = Some b.
Proof. rewrite lookup_app_r by lia. by replace (S (length l) - length l) with 1 by lia. Qed.

(** C4.  A first call for a destination, in a session: when the file at
    the destination passes the check of [checkData] against the descriptor
    of the call, both when [fs.stat] completes and when the verification
    completes, the caller gets the time of the moment the verification
    completed, which is not before the call; the closure of the destination
    starts [fs.stat], the verification and nothing else, so it writes no
    temporary file and renames nothing, then and ever after. *)
Theorem skip_on_match now0 disk0 evs0 evs1 evs2 evs3 cafsDir buffer fileDest mode integrity f :
  let d := Path.join cafsDir fileDest in
  let st := run (init now0 disk0) evs0 in
  let p := length (heap st) in
  let cs := writeBufferToCafs cafsDir buffer fileDest mode integrity st in
  locker st !! d = None →
  checkData (content f) integrity = true →
  noResume p evs1 = true →
  noResume p evs2 = true →
  let s1 := run cs.2 evs1 in
  disk s1 !! d = Some f →
  let s2 := run (step s1 (Resume p None)) evs2 in
  disk s2 !! d = Some f →
  let s3 := run (step s2 (Resume p None)) evs3 in
  outcome s3 cs.1 = Some (Fulfilled (now s2))
  ∧ (now st ≤ now s2)%N
  ∧ tagged d (trace s3) =
      [(d, EAwait (Stat d));
       (d, EAwait (VerifyFileIntegrity d
                     {| expectedSize := N.of_nat (length (content f));
                        expectedIntegrity := integrity |}));
       (d, ESync DateNow)]
  ∧ writesFor d (trace s3) = 0
  ∧ renamesFor d (trace s3) = 0
  ∧ renamesTo d (trace s3) = 0.
Proof.
  intros d st p cs Hl Hcheck Hn1 Hn2 s1 Hd1 s2 Hd2 s3.
  assert (HI : Inv st) by apply Inv_reachable.
  assert (Hcs : cs = _) by apply (writeBufferToCafs_fresh cafsDir buffer fileDest mode integrity st Hl).
  fold d p in Hcs.
  change (cellOf d (runSync (now st) (disk st) (writeBody buffer d mode integrity)))
    with (Suspended d (writeBody buffer d mode integrity)) in Hcs.
  change (started (now st) (disk st) (writeBody buffer d mode integrity))
    with [EAwait (Stat d)] in Hcs.
  (* the state the call returns *)
  assert (HIc : Inv cs.2) by apply (Inv_step st (Call cafsDir buffer fileDest mode integrity) HI).
  assert (Hlc : locker cs.2 !! d = Some p) by (rewrite Hcs; simpl; by rewrite lookup_insert_eq).
  assert (Hpc : heap cs.2 !! p = Some (Suspended d (writeBody buffer d mode integrity))).
  { rewrite Hcs. simpl. apply lookup_snoc2_fst. }
  assert (Hqc : heap cs.2 !! cs.1 = Some (Outer p)).
  { rewrite Hcs. simpl. apply lookup_snoc2_snd. }
  assert (Htc : tagged d (trace cs.2) = [(d, EAwait (Stat d))]).
  { rewrite Hcs. simpl. rewrite tagged_app, (inv_fresh _ HI d Hl). simpl.
    by apply (tagged_map_same d [EAwait (Stat d)]). }
  assert (Hnc : now cs.2 = now st) by by rewrite Hcs.
  (* up to the completion of [fs.stat] *)
  assert (HI1 : Inv s1) by by apply Inv_run.
  assert (Hl1 : locker s1 !! d = Some p) by by apply run_locker.
  assert (Hp1 : heap s1 !! p = Some (Suspended d (writeBody buffer d mode integrity)))
    by by apply run_cell_noResume.
  assert (Ht1 : tagged d (trace s1) = [(d, EAwait (Stat d))])
    by by (unfold s1; rewrite (run_tagged_noResume _ _ d p)).
  pose proof (lookup_lt_Some _ _ _ Hp1) as Hlt1.
  pose proof (step_writeBody_present s1 p d buffer mode integrity f Hp1 Hd1) as Hs1'.
  set (s1' := step s1 (Resume p None)) in *.
  set (info := {| expectedSize := N.of_nat (length (content f));
                  expectedIntegrity := integrity |}) in *.
  set (stats := {| size := N.of_nat (length (content f)) |}) in *.
  assert (HI1' : Inv s1') by by apply Inv_step.
  assert (Hl1' : locker s1' !! d = Some p) by by apply step_locker.
  assert (Hp1' : heap s1' !! p = Some (Suspended d (afterStat buffer d mode integrity stats))).
  { rewrite Hs1'. simpl. by apply list_lookup_insert_eq. }
  assert (Ht1' : tagged d (trace s1') =
                 [(d, EAwait (Stat d)); (d, EAwait (VerifyFileIntegrity d info))]).
  { rewrite Hs1'. simpl. rewrite tagged_app, Ht1.
    by rewrite tagged_one. }
  (* up to the completion of the verification *)
  assert (HI2 : Inv s2) by by apply Inv_run.
  assert (Hl2 : locker s2 !! d = Some p) by by apply run_locker.
  assert (Hp2 : heap s2 !! p = Some (Suspended d (afterStat buffer d mode integrity stats)))
    by by apply run_cell_noResume.
  assert (Ht2 : tagged d (trace s2) =
                [(d, EAwait (Stat d)); (d, EAwait (VerifyFileIntegrity d info))])
    by by (unfold s2; rewrite (run_tagged_noResume _ _ d p)).
  pose proof (lookup_lt_Some _ _ _ Hp2) as Hlt2.
  assert (Hv : verifyFileIntegrity None (disk s2) d info = true).
  { unfold verifyFileIntegrity. rewrite Hd2. simpl.
    by rewrite N.eqb_refl, Hcheck. }
  pose proof (step_afterStat_same s2 p d buffer mode integrity stats Hp2 Hv) as Hs2'.
  set (s2' := step s2 (Resume p None)) in *.
  assert (HI2' : Inv s2') by by apply Inv_step.
  assert (Hl2' : locker s2' !! d = Some p) by by apply step_locker.
  assert (Hp2' : heap s2' !! p = Some (Settled (Fulfilled (now s2)))).
  { rewrite Hs2'. simpl. by apply list_lookup_insert_eq. }
  assert (Ht2' : tagged d (trace s2') =
                 [(d, EAwait (Stat d)); (d, EAwait (VerifyFileIntegrity d info));
                  (d, ESync DateNow)]).
  { rewrite Hs2'. simpl. rewrite tagged_app, Ht2.
    by rewrite tagged_one. }
  (* ever after *)
  assert (Ht3 : tagged d (trace s3) = tagged d (trace s2'))
    by by apply (run_tagged_settled _ _ d p (Fulfilled (now s2))).
  assert (Hq3 : heap s3 !! cs.1 = Some (Outer p)).
  { by apply run_cell_outer, step_cell_outer, run_cell_outer, step_cell_outer, run_cell_outer. }
  assert (Hnow : (now st ≤ now s2)%N).
  { pose proof (run_now cs.2 evs1) as H1. fold s1 in H1.
    pose proof (step_now s1 (Resume p None)) as H2. fold s1' in H2.
    pose proof (run_now s1' evs2) as H3. fold s2 in H3. lia. }
  split; [|split; [done|split; [by rewrite Ht3|]]].
  - rewrite (outcome_outer _ _ p) by done.
    by apply cellOutcome_settled, run_cell_settled.
  - rewrite renamesTo_tagged by apply Inv_run, HI2'.
    unfold writesFor, renamesFor, countFor. rewrite Ht3, Ht2'. by repeat split.
Qed.

(** * Further properties *)

(** ** [removeSuffix] *)

Lemma hasChar_app c a b : hasChar c (a ++ b) = hasChar c a || hasChar c b.
Proof. induction a as [|x a IH]; [done|]. simpl. by rewrite IH, orb_assoc. Qed.

Lemma hasChar_slash s : hasChar Path.slash s = Path.hasSlash s.
Proof. induction s as [|c s IH]; [done|]. simpl. by rewrite IH. Qed.

Lemma index_dash_cons c s :
  index 0 "-" (String c s) =
  if Ascii.eqb c dash then Some 0 else S <$> index 0 "-" s.
Proof.
  change (index 0 "-" (String c s)) with
    (if String.prefix "-" (String c s) then Some 0
     else match index 0 "-" s with Some n => Some (S n) | None => None end).
  assert (String.prefix "-" (String c s) = Ascii.eqb c dash) as ->.
  { destruct (Ascii.eqb c dash) eqn:E.
    - apply Ascii.eqb_eq in E as ->. by destruct s.
    - apply Ascii.eqb_neq in E.
      destruct (String.prefix "-" (String c s)) eqn:P; [|done].
      apply String.prefix_correct in P. simpl in P. destruct s; injection P as P; by destruct E. }
  by destruct (index 0 "-" s).
Qed.

Lemma substring_all s : substring 0 (String.length s) s = s.
Proof. induction s as [|c s IH]; [done|]. simpl. by rewrite IH. Qed.

(** [removeSuffix] by cases: a name without a dash is kept; a name [pre-post]
    whose first dash is the one shown becomes [pre], or [prex] when [post] is
    "exec". *)
Lemma removeSuffix_cases s :
  (hasChar dash s = false ∧ removeSuffix s = s)
  ∨ ∃ pre post, s = pre ++ String dash post
      ∧ hasChar dash pre = false
      ∧ removeSuffix s = if (post =? "exec")%string then pre ++ "x" else pre.
Proof.
  unfold removeSuffix.
  assert (H : match index 0 "-" s with
              | None => hasChar dash s = false
              | Some n => ∃ pre post, s = pre ++ String dash post
                  ∧ hasChar dash pre = false
                  ∧ substring 0 n s = pre
                  ∧ substring n (String.length s - n) s = String dash post
              end).
  { induction s as [|c s IH]; [done|].
    rewrite index_dash_cons. destruct (Ascii.eqb c dash) eqn:E.
    - apply Ascii.eqb_eq in E as ->. exists "", s. repeat split.
      rewrite Nat.sub_0_r. apply (substring_all (String dash s)).
    - destruct (index 0 "-" s) as [n|]; simpl.
      + destruct IH as (pre & post & -> & Hpre & H1 & H2).
        exists (String c pre), post. simpl. by rewrite E, H1, H2, Hpre.
      + by rewrite E, IH. }
  destruct (index 0 "-" s) as [n|]; [|by left].
  right. destruct H as (pre & post & -> & Hpre & -> & ->).
  exists pre, post. split; [done|]. split; [done|].
  change (String dash post =? "-exec")%string with (post =? "exec")%string. done.
Qed.

Lemma first_dash_unique a p b q :
  hasChar dash a = false → hasChar dash b = false →
  a ++ String dash p = b ++ String dash q → a = b ∧ p = q.
Proof.
  revert b. induction a as [|c a IH]; intros [|c' b]; simpl.
  - by intros _ _ [= ->].
  - intros _ [Hc _]%orb_false_iff [= <- _]. by rewrite Ascii.eqb_refl in Hc.
  - intros [Hc _]%orb_false_iff _ [= -> _]. by rewrite Ascii.eqb_refl in Hc.
  - intros [_ Ha]%orb_false_iff [_ Hb]%orb_false_iff [= -> E].
    by destruct (IH b Ha Hb E) as [-> ->].
Qed.

Lemma length_append (a b : string) :
  String.length (a ++ b) = String.length a + String.length b.
Proof. induction a as [|c a IH]; [done|]. simpl. by rewrite IH. Qed.

Lemma append_inj_r (a b c : string) : a ++ c = b ++ c → a = b.
Proof.
  intros E. assert (Hlen : String.length a = String.length b).
  { apply (f_equal String.length) in E. rewrite !length_append in E. lia. }
  revert b E Hlen. induction a as [|x a IH]; intros [|y b]; simpl; try done.
  intros [= -> E] [= Hlen]. by rewrite (IH b E Hlen).
Qed.

Lemma hasChar_mid c a p : hasChar c (a ++ String c p) = true.
Proof.
  induction a as [|x a IH]; simpl.
  - by rewrite Ascii.eqb_refl.
  - by rewrite IH, orb_true_r.
Qed.

Lemma removeSuffix_plain_name a : hasChar dash a = false → removeSuffix a = a.
Proof.
  intros Ha.
  destruct (removeSuffix_cases a) as [[_ H]|(pre & p & E & _ & _)]; [done|].
  by rewrite E, hasChar_mid in Ha.
Qed.

Lemma removeSuffix_exec_name a :
  hasChar dash a = false → removeSuffix (a ++ "-exec") = a ++ "x".
Proof.
  intros Ha.
  destruct (removeSuffix_cases (a ++ "-exec")) as [[H _]|(pre & p & E & Hpre & ->)].
  - pose proof (hasChar_mid dash a "exec") as Hm.
    change (String dash "exec") with "-exec" in Hm. congruence.
  - apply (first_dash_unique a "exec" pre p Ha Hpre) in E as [<- <-]. done.
Qed.

(** X1.  For a name [a] without a dash: [removeSuffix] keeps [a] as it is,
    turns [a-exec] into [ax], and turns [a-post], for any other [post], into
    [a]. *)
Theorem removeSuffix_by_suffix a post :
  hasChar dash a = false →
  removeSuffix a = a
  ∧ removeSuffix (a ++ "-exec") = a ++ "x"
  ∧ (post ≠ "exec" → removeSuffix (a ++ String dash post) = a).
Proof.
  intros Ha. split; [by apply removeSuffix_plain_name|].
  split; [by apply removeSuffix_exec_name|].
  intros Hpost.
  destruct (removeSuffix_cases (a ++ String dash post)) as [[H _]|(pre & p & E & Hpre & ->)].
  - by rewrite hasChar_mid in H.
  - apply (first_dash_unique a post pre p Ha Hpre) in E as [<- <-].
    by rewrite (eqb_neq_false _ _ Hpost).
Qed.

Lemma removeSuffix_shape s :
  hasChar dash (removeSuffix s) = false
  ∧ String.length (removeSuffix s) ≤ String.length s.
Proof.
  destruct (removeSuffix_cases s) as [[H ->]|(pre & post & -> & Hpre & ->)]; [done|].
  destruct (String.eqb_spec post "exec") as [->|_].
  - rewrite hasChar_app, Hpre, !length_append. simpl. split; [done|lia].
  - rewrite length_append. split; [done|lia].
Qed.

(** X2.  What [removeSuffix] returns has no dash and is not longer than the
    name it was given; applying [removeSuffix] to it changes nothing. *)
Theorem removeSuffix_result s :
  hasChar dash (removeSuffix s) = false
  ∧ String.length (removeSuffix s) ≤ String.length s
  ∧ removeSuffix (removeSuffix s) = removeSuffix s.
Proof.
  destruct (removeSuffix_shape s) as [Hd Hl]. split; [done|]. split; [done|].
  by apply removeSuffix_plain_name.
Qed.

(** Names of the store: a base without dash and without the letter of the
    marker, as a hexadecimal digest is, alone or followed by "-exec". *)
Lemma removeSuffix_store_names a b (ea eb : bool) :
  hasChar dash a = false → hasChar dash b = false →
  hasChar "x" a = false → hasChar "x" b = false →
  removeSuffix (a ++ if ea then "-exec" else "")
  = removeSuffix (b ++ if eb then "-exec" else "") →
  a = b ∧ ea = eb.
Proof.
  intros Ha Hb Hxa Hxb.
  pose proof (removeSuffix_plain_name a Ha) as Ha0.
  pose proof (removeSuffix_exec_name a Ha) as Ha1.
  pose proof (removeSuffix_plain_name b Hb) as Hb0.
  pose proof (removeSuffix_exec_name b Hb) as Hb1.
  assert (Hnil : ∀ s : string, s ++ "" = s).
  { intros s. induction s as [|c s IH]; [done|]. simpl. by rewrite IH. }
  destruct ea, eb; rewrite ?Hnil, ?Ha0, ?Ha1, ?Hb0, ?Hb1; intros E.
  - by rewrite (append_inj_r _ _ _ E).
  - by rewrite <- E, (hasChar_mid "x" a "") in Hxb.
  - by rewrite E, (hasChar_mid "x" b "") in Hxa.
  - done.
Qed.

(** ** [pathTemp] *)

Lemma segments_noslash_all s :
  Forall (λ seg, Path.hasSlash seg = false) (Path.segments s).
Proof.
  induction s as [|c s IH]; simpl; [by repeat constructor|].
  destruct (Ascii.eqb c Path.slash) eqn:E; [by constructor|].
  destruct (Path.segments s) as [|h t]; [by repeat constructor; simpl; rewrite E|].
  inversion IH as [|? ? Hh Ht]; subst. constructor; [|done]. simpl. by rewrite E.
Qed.

Lemma basename_noslash f : Path.hasSlash (Path.basename f) = false.
Proof.
  unfold Path.basename.
  destruct (last (filter (λ seg, seg ≠ "") (Path.segments f))) as [x|] eqn:E; [|done].
  simpl. apply last_Some_elem_of in E. apply list_elem_of_filter in E as [_ E].
  by apply (proj1 (Forall_forall _ _) (segments_noslash_all f)).
Qed.

Lemma removeSuffix_noslash s :
  Path.hasSlash s = false → Path.hasSlash (removeSuffix s) = false.
Proof.
  intros Hs.
  destruct (removeSuffix_cases s) as [[_ ->]|(pre & post & -> & _ & ->)]; [done|].
  rewrite hasSlash_app in Hs. apply orb_false_iff in Hs as [Hpre _].
  destruct (post =? "exec")%string; [|done].
  by rewrite hasSlash_app, Hpre.
Qed.

Lemma string_of_uint_nodot d : hasChar "." (NilEmpty.string_of_uint d) = false.
Proof. induction d; simpl; done. Qed.

Lemma string_of_uint_nodash d : hasChar dash (NilEmpty.string_of_uint d) = false.
Proof. induction d; simpl; done. Qed.

Lemma decimal_nonempty n : decimal n ≠ "".
Proof.
  unfold decimal. destruct n as [|p]; [done|]. simpl.
  pose proof (DecimalPos.Unsigned.to_uint_nonnil p) as H.
  by destruct (Pos.to_uint p).
Qed.

Lemma decimal_inj n n' : decimal n = decimal n' → n = n'.
Proof.
  unfold decimal. intros E. apply DecimalN.Unsigned.to_uint_inj.
  apply (f_equal NilEmpty.uint_of_string) in E.
  rewrite !NilEmpty.usu in E. by injection E.
Qed.

Lemma lastChar_in s c : Path.lastChar s = Some c → hasChar c s = true.
Proof.
  induction s as [|x s IH]; [done|]. simpl. destruct s as [|y s].
  - intros [= ->]. by rewrite Ascii.eqb_refl.
  - intros H. by rewrite (IH H), orb_true_r.
Qed.

(** A name followed by the process id is a file name proper. *)
Lemma plain_with_pid r : Path.hasSlash r = false → Path.plain (r ++ decimal pid).
Proof.
  intros Hr.
  assert (Hlast : Path.lastChar (r ++ decimal pid) ≠ Some "."%char).
  { rewrite lastChar_app by apply decimal_nonempty. intros H%lastChar_in.
    unfold decimal in H. by rewrite string_of_uint_nodot in H. }
  repeat split.
  - by rewrite hasSlash_app, Hr, decimal_noslash.
  - apply append_nonempty, decimal_nonempty.
  - intros E. by rewrite E in Hlast.
  - intros E. by rewrite E in Hlast.
Qed.

Lemma pathTemp_basename file :
  Path.basename (pathTemp file) = removeSuffix (Path.basename file) ++ decimal pid.
Proof.
  unfold pathTemp. apply basename_join, plain_with_pid, removeSuffix_noslash, basename_noslash.
Qed.

(** X3.  The file name of the temporary path of any file is the file name of
    that file, cut by [removeSuffix], followed by the process id in decimal;
    it is a file name proper, and it is not longer than the name of the file
    and the digits of the process id together. *)
Theorem basename_pathTemp file :
  Path.basename (pathTemp file) = removeSuffix (Path.basename file) ++ decimal pid
  ∧ Path.plain (Path.basename (pathTemp file))
  ∧ String.length (Path.basename (pathTemp file))
    ≤ String.length (Path.basename file) + String.length (decimal pid).
Proof.
  rewrite pathTemp_basename. split; [done|]. split.
  - apply plain_with_pid, removeSuffix_noslash, basename_noslash.
  - rewrite length_append.
    destruct (removeSuffix_shape (Path.basename file)) as [_ Hl]. lia.
Qed.

Lemma pathTemp_basename_neq file :
  Path.basename (pathTemp file) ≠ Path.basename file.
Proof.
  rewrite pathTemp_basename. intros H.
  set (b := Path.basename file) in *.
  destruct (removeSuffix_shape b) as [Hd _].
  assert (Hb : hasChar dash b = false).
  { rewrite <- H, hasChar_app, Hd. apply string_of_uint_nodash. }
  rewrite (removeSuffix_plain_name b Hb) in H.
  apply (f_equal String.length) in H. rewrite length_append in H.
  pose proof (decimal_nonempty pid). destruct (decimal pid); [done|]. simpl in H. lia.
Qed.

Lemma pathTemp_neq file : pathTemp file ≠ file.
Proof. intros E. apply (pathTemp_basename_neq file). by rewrite E. Qed.

(** X4.  The temporary path of a file is never the path of the file itself,
    and not even its file name is the name of the file: the buffer is never
    written onto the destination. *)
Theorem pathTemp_not_dest file :
  pathTemp file ≠ file
  ∧ Path.basename (pathTemp file) ≠ Path.basename file.
Proof.
  split.
  - apply pathTemp_neq.
  - apply pathTemp_basename_neq.
Qed.

(** X5.  Files of the store whose names differ have different temporary
    paths.  A name of the store is a base without dash and without "x", as a
    hexadecimal digest is, alone or followed by "-exec". *)
Theorem pathTemp_store_names file file' a b (ea eb : bool) :
  Path.basename file = a ++ (if ea then "-exec" else "") →
  Path.basename file' = b ++ (if eb then "-exec" else "") →
  hasChar dash a = false → hasChar dash b = false →
  hasChar "x" a = false → hasChar "x" b = false →
  pathTemp file = pathTemp file' →
  Path.basename file = Path.basename file'.
Proof.
  intros Hf Hf' Ha Hb Hxa Hxb E.
  apply (f_equal Path.basename) in E. rewrite !pathTemp_basename in E.
  apply append_inj_r in E. rewrite Hf, Hf' in *.
  by destruct (removeSuffix_store_names a b ea eb Ha Hb Hxa Hxb E) as [-> ->].
Qed.

(** ** The session *)

(** X6.  In a session, an effect is only ever started for a destination that
    is in the locker; a closure writes no other file than the temporary file
    of its destination, which is not the destination, and renames nothing
    but that file onto its destination. *)
Theorem closure_effects_on_own_paths now0 disk0 evs d e :
  let st := run (init now0 disk0) evs in
  (d, e) ∈ trace st →
  is_Some (locker st !! d)
  ∧ match e with
    | EAwait (WriteFile t _ _) => t = pathTemp d ∧ t ≠ d
    | EAwait (RenameOverwrite t n) => t = pathTemp d ∧ n = d ∧ t ≠ n
    | _ => True
    end.
Proof.
  intros st Hin. pose proof (Inv_reachable now0 disk0 evs) as HI. fold st in HI.
  split.
  - destruct (locker st !! d) eqn:E; [by eexists|].
    pose proof (inv_fresh _ HI d E) as Hf.
    assert ((d, e) ∈ tagged d (trace st)) as Hin' by by apply list_elem_of_filter.
    rewrite Hf in Hin'. by apply not_elem_of_nil in Hin'.
  - pose proof (proj1 (Forall_forall _ _) (inv_targets _ HI) _ Hin) as Ht.
    destruct e as [|[]]; simpl in Ht; try done.
    + rewrite Ht. split; [done|]. apply pathTemp_neq.
    + destruct Ht as [-> ->]. repeat split. apply pathTemp_neq.
Qed.

(** X7.  From a closure parked on the write of its temporary file: when the
    write succeeds, the temporary file is still the one written when the
    rename completes, and the rename succeeds, then the destination holds the
    buffer with the mode of the call, the temporary file is gone, every other
    file is as it was, and the promise is fulfilled with the time at which
    the write completed. *)
Theorem write_commits_buffer st p d buffer mode evs :
  heap st !! p = Some (Suspended d (writePath buffer d mode)) →
  noResume p evs = true →
  let written := {| content := buffer; fmode := mode |} in
  let s1 := step st (Resume p None) in
  let s2 := run s1 evs in
  let s3 := step s2 (Resume p None) in
  disk s2 !! pathTemp d = Some written →
  disk s3 !! d = Some written
  ∧ disk s3 !! pathTemp d = None
  ∧ (∀ path, path ≠ d → path ≠ pathTemp d → disk s3 !! path = disk s2 !! path)
  ∧ cellOutcome s3 p = Some (Fulfilled (now st)).
Proof.
  intros Hp Hn written s1 s2 s3 Htemp.
  assert (Hcell : heap s1 !! p = Some (Suspended d (commitPath (pathTemp d) d (now st)))).
  { unfold s1. rewrite (step_writePath_written st p d buffer mode Hp). simpl.
    apply list_lookup_insert_eq. by eapply lookup_lt_Some. }
  assert (Hcell2 : heap s2 !! p = Some (Suspended d (commitPath (pathTemp d) d (now st))))
    by by apply run_cell_noResume.
  destruct (step_resume s2 p _ _ None Hcell2 (commitPath_await _ _ _)) as (Hc3 & Hd3 & _).
  fold s3 in Hc3, Hd3. rewrite resume_commitPath in Hc3, Hd3.
  unfold renameOverwrite in Hc3, Hd3. rewrite Htemp in Hc3, Hd3. simpl in Hc3, Hd3.
  pose proof (pathTemp_neq d) as Hne.
  rewrite Hd3. repeat split.
  - apply lookup_insert_eq.
  - etransitivity; [by apply lookup_insert_ne|]. apply lookup_delete_eq.
  - intros path H1 H2. etransitivity; [by apply lookup_insert_ne|].
    by apply lookup_delete_ne.
  - unfold cellOutcome. by rewrite Hc3.
Qed.

Lemma timely_later t0 t t' c : (t ≤ t')%N → timely t0 t c → (∃ o k, c = Await o k) → timely t0 t' c.
Proof.
  intros Ht Hc (o & k & ->). simpl in *. intros x t'' Ht'. apply Hc. lia.
Qed.

Lemma timely_runSync t0 t dk c : timely t0 t c → timely t0 t (runSync t dk c).
Proof.
  induction c as [v|e|o k IH|o k _]; simpl; try done.
  intros H. apply IH, H.
Qed.

Lemma writeBody_timely t0 t buffer d mode integrity :
  (t0 ≤ t)%N → timely t0 t (writeBody buffer d mode integrity).
Proof.
  intros Ht. unfold writeBody, existsSame, writePath, commitPath, optimisticRenameOverwrite,
    await, call. simpl.
  assert (Hw : ∀ t1, (t ≤ t1)%N → ∀ x t2, (t1 ≤ t2)%N →
    timely t0 t2
      (bind match x with inl e => Throw e | inr v => Ret v end
         (λ _ : unit,
            bind (Sync DateNow Ret)
              (λ birthtimeMs,
                 bind
                   (tryCatch
                      (Await (RenameOverwrite (pathTemp d) d)
                         (λ r, match r with inl e => Throw e | inr v => Ret v end))
                      (λ err,
                         if negb (code err =? "ENOENT")%string then Throw err
                         else bind (Sync (ExistsSync d) Ret)
                                (λ present, if negb present then Throw err else Ret tt)))
                   (λ _, Ret birthtimeMs))))).
  { intros t1 Ht1 [e|[]] t2 Ht2; simpl; [done|].
    intros _ [e|[]] t3 Ht3; simpl.
    - destruct (negb (code e =? "ENOENT")%string); simpl; [done|].
      intros dk. destruct (negb (existsSync dk d)); simpl; [done|lia].
    - lia. }
  intros [e|s] t1 Ht1; simpl.
  - by apply (Hw t1).
  - intros [e|[]] t2 Ht2; simpl; [done| |].
    + intros _. lia.
    + apply (Hw t2); lia.
Qed.

Lemma timelyCell_Stepped t0 st e st' p :
  Stepped st e st' → (t0 ≤ now st)%N → timelyCell t0 st p → timelyCell t0 st' p.
Proof.
  intros Hs Ht0 Hg. unfold timelyCell in *.
  destruct (heap st !! p) as [cell|] eqn:Hp; [|done].
  destruct Hs as [| |p' fault d o k Hp' r| |ms|]; simpl.
  - by rewrite (lookup_app_l_Some _ _ _ _ Hp).
  - by rewrite (lookup_app_l_Some _ _ _ _ Hp).
  - destruct (decide (p' = p)) as [->|Hne].
    + rewrite list_lookup_insert_eq by by eapply lookup_lt_Some.
      rewrite Hp in Hp'. injection Hp' as ->.
      destruct Hg as (tp & Htp & Hk). simpl in Hk.
      pose proof (timely_runSync t0 (now st) r.2 (k r.1) (Hk _ _ Htp)) as Hr.
      pose proof (runSync_not_sync (now st) r.2 (k r.1)) as Hns.
      destruct (runSync (now st) r.2 (k r.1)) as [v|e'|o' k'|o' k']; simpl; try done.
      * by destruct (Hns o' k').
      * exists (now st). split; [lia|done].
    + rewrite list_lookup_insert_ne by done. by rewrite Hp.
  - by rewrite Hp.
  - rewrite Hp. destruct cell as [d c|[v|]|]; try done.
    + destruct Hg as (tp & Htp & Hc). exists tp. split; [lia|done].
    + lia.
  - by rewrite Hp.
Qed.

Lemma timelyCell_run t0 st evs p :
  (t0 ≤ now st)%N → timelyCell t0 st p → timelyCell t0 (run st evs) p.
Proof.
  revert st. induction evs as [|e evs IH]; intros st Ht Hg; [done|].
  simpl. apply IH.
  - pose proof (step_now st e). lia.
  - eapply timelyCell_Stepped; [apply step_Stepped|done|done].
Qed.

(** X8.  The caller of the call that starts the write of a destination is
    never given a time before its call, nor a time that has not come yet:
    whatever happens after the call, a timestamp it gets lies between the
    time of the call and the time at which it gets it. *)
Theorem timestamp_between_call_and_delivery st evs cafsDir buffer fileDest mode integrity t :
  locker st !! Path.join cafsDir fileDest = None →
  let cs := writeBufferToCafs cafsDir buffer fileDest mode integrity st in
  outcome (run cs.2 evs) cs.1 = Some (Fulfilled t) →
  (now st ≤ t ≤ now (run cs.2 evs))%N.
Proof.
  intros Hl cs Ho.
  assert (Hcs : cs = _) by apply (writeBufferToCafs_fresh cafsDir buffer fileDest mode integrity st Hl).
  set (d := Path.join cafsDir fileDest) in *. set (p := length (heap st)) in *.
  change (cellOf d (runSync (now st) (disk st) (writeBody buffer d mode integrity)))
    with (Suspended d (writeBody buffer d mode integrity)) in Hcs.
  assert (Hq : heap cs.2 !! cs.1 = Some (Outer p)).
  { rewrite Hcs. simpl. apply lookup_snoc2_snd. }
  assert (Hg : timelyCell (now st) cs.2 p).
  { unfold timelyCell. rewrite Hcs. simpl. unfold p. rewrite lookup_snoc2_fst.
    exists (now st). split; [lia|]. by apply writeBody_timely. }
  assert (Hnow : now cs.2 = now st) by by rewrite Hcs.
  apply (timelyCell_run (now st) cs.2 evs p) in Hg; [|lia].
  rewrite (outcome_outer _ _ p) in Ho by by apply run_cell_outer.
  apply cellOutcome_inv in Ho. unfold timelyCell in Hg. by rewrite Ho in Hg.
Qed.

(** ** The order of the write and the rename *)

Lemma orderly_mono (w w' : bool) c : (w = true → w' = true) → orderly w c → orderly w' c.
Proof.
  revert w w'. induction c as [v|e|o k IH|o k IH]; intros w w' Hw; simpl; try done.
  - intros H x. by apply (IH x w w').
  - intros [Hr Hk]. split; [intros H; by apply Hw, Hr|].
    intros x. apply (IH x (w || bool_decide (writeCost o = 1))); [|done].
    intros [H|H]%orb_true_iff.
    + by rewrite (Hw H).
    + by rewrite H, orb_true_r.
Qed.

Lemma orderly_runSync w t dk c : orderly w c → orderly w (runSync t dk c).
Proof.
  induction c as [v|e|o k IH|o k _]; simpl; try done.
  intros H. apply IH, H.
Qed.

(** In the closure the rename comes after the write of the temporary file. *)
Lemma writeBody_orderly buffer d mode integrity :
  orderly false (writeBody buffer d mode integrity).
Proof.
  unfold writeBody, existsSame, writePath, commitPath, optimisticRenameOverwrite, await, call.
  simpl. split; [done|].
  intros [e|s]; simpl.
  - split; [done|]. intros [e'|[]]; simpl; [done|].
    intros t. split; [done|]. intros [e'|[]]; simpl; [|done].
    destruct (negb (code e' =? "ENOENT")%string); simpl; [done|].
    intros []; simpl; done.
  - split; [done|]. intros [e|[]]; simpl; [done|done|].
    split; [done|]. intros [e'|[]]; simpl; [done|].
    intros t. split; [done|]. intros [e'|[]]; simpl; [|done].
    destruct (negb (code e' =? "ENOENT")%string); simpl; [done|].
    intros []; simpl; done.
Qed.

Lemma advance_orderly d w r t dk c tr :
  within d w r c →
  orderly (bool_decide (0 < writesFor d tr)) c →
  writesFor d tr + w ≤ 1 →
  renamesFor d tr + r ≤ 1 →
  renamesFor d tr ≤ writesFor d tr →
  let tr' := (tr ++ map (pair d) (started t dk c))%list in
  renamesFor d tr' ≤ writesFor d tr'
  ∧ ∀ d' c', cellOf d (runSync t dk c) = Suspended d' c' → parkedOrderly d tr' c'.
Proof.
  intros Hc Ho Hw Hr Hle tr'.
  destruct (started_budget d w r t dk c Hc) as [_ Hb].
  pose proof (orderly_runSync _ t dk c Ho) as Hrs.
  pose proof (runSync_not_sync t dk c) as Hns.
  unfold tr', writesFor, renamesFor in *. rewrite !countFor_grow.
  destruct (runSync t dk c) as [v|e|o k|o k]; simpl.
  - destruct Hb as [-> ->]. split; [lia|done].
  - destruct Hb as [-> ->]. split; [lia|done].
  - by destruct (Hns o k).
  - destruct Hb as (Hb1 & Hb2 & Hwc & Hrc & _). rewrite Hb1, Hb2.
    simpl in Hrs. destruct Hrs as [Hren Hk].
    assert (Hcount : countFor isRename d tr + renameCost o
                     ≤ countFor isWrite d tr + writeCost o).
    { destruct (decide (renameCost o = 1)) as [E|E].
      - apply Hren, bool_decide_eq_true in E. lia.
      - assert (renameCost o = 0) by (destruct o; simpl in *; lia). lia. }
    split; [done|].
    intros d' c' [= <- <-]. simpl. intros x.
    unfold writesFor. rewrite countFor_grow, Hb1.
    eapply orderly_mono; [|apply Hk].
    intros [H%bool_decide_eq_true|H%bool_decide_eq_true]%orb_true_iff;
      apply bool_decide_eq_true; lia.
Qed.

Lemma InvOrder_init now0 disk0 : InvOrder (init now0 disk0).
Proof.
  split; [apply Inv_init|done|].
  intros d. unfold writesFor, renamesFor, countFor. simpl. lia.
Qed.

Lemma InvOrder_Stepped st e st' : InvOrder st → Stepped st e st' → InvOrder st'.
Proof.
  intros [HI Hpark Hcount] Hs.
  pose proof (Inv_Stepped st e st' HI Hs) as HI'.
  pose proof HI as [Hown Hfresh Hbud Honce _].
  split; [done| |];
    destruct Hs as [cafsDir buffer fileDest mode integrity p Hl
                   |cafsDir buffer fileDest mode integrity d body p Hl
                   |p fault d o k Hp r
                   |p fault _
                   |ms
                   |path f]; cbn [heap trace setNow setDisk]; try done.
  - intros q d c [H|[_ H]]%lookup_app_Some; [by eapply Hpark|].
    by destruct (q - length (heap st)) as [|[|]].
  - assert (Hd : tagged d (trace st) = []) by by apply Hfresh.
    destruct (advance_orderly d 1 1 (now st) (disk st) body (trace st)) as (_ & Hcell).
    { apply writeBody_within. }
    { eapply orderly_mono; [|apply writeBody_orderly]. done. }
    { unfold writesFor. rewrite countFor_fresh by done. lia. }
    { unfold renamesFor. rewrite countFor_fresh by done. lia. }
    { unfold writesFor, renamesFor. rewrite !countFor_fresh by done. lia. }
    clearbody body.
    intros q d' c [H|[Hq H]]%lookup_app_Some.
    + assert (d' ≠ d) by (intros ->; apply Hown in H; congruence).
      pose proof (Hpark _ _ _ H) as Hb.
      destruct c as [| | |o k]; try done. simpl in *. intros x.
      unfold writesFor in *. by rewrite countFor_other.
    + destruct (q - length (heap st)) as [|[|]] eqn:E; simpl in H; simplify_eq.
      assert (d' = d) as ->; [|by apply (Hcell d)].
      unfold cellOf in H.
      destruct (runSync (now st) (disk st) body); by simplify_eq.
  - pose proof (Hbud _ _ _ Hp) as (w & r' & Hk & Hw & Hr).
    pose proof (lookup_lt_Some _ _ _ Hp) as Hlt.
    destruct (advance_orderly d w r' (now st) r.2 (k r.1) (trace st)
                (Hk _) (Hpark _ _ _ Hp _) Hw Hr (Hcount d)) as (_ & Hcell).
    intros q d' c H. destruct (decide (q = p)) as [->|Hq].
    + rewrite list_lookup_insert_eq in H by done. simplify_eq.
      assert (d' = d) as ->; [|by apply (Hcell d)].
      unfold cellOf in H.
      destruct (runSync (now st) r.2 (k r.1)); by simplify_eq.
    + rewrite list_lookup_insert_ne in H by done.
      assert (d' ≠ d).
      { intros ->. apply Hown in H. apply Hown in Hp. congruence. }
      pose proof (Hpark _ _ _ H) as Hb.
      destruct c as [| | |o' k']; try done. simpl in *. intros x.
      unfold writesFor in *. by rewrite countFor_other.
  - intros d'. destruct (decide (d' = d)) as [->|Hdd].
    + assert (Hd : tagged d (trace st) = []) by by apply Hfresh.
      destruct (advance_orderly d 1 1 (now st) (disk st) body (trace st)) as (Hle & _).
      { apply writeBody_within. }
      { eapply orderly_mono; [|apply writeBody_orderly]. done. }
      { unfold writesFor. rewrite countFor_fresh by done. lia. }
      { unfold renamesFor. rewrite countFor_fresh by done. lia. }
      { unfold writesFor, renamesFor. rewrite !countFor_fresh by done. lia. }
      done.
    + unfold writesFor, renamesFor. rewrite !countFor_other by done. apply Hcount.
  - intros d'. destruct (decide (d' = d)) as [->|Hdd].
    + pose proof (Hbud _ _ _ Hp) as (w & r' & Hk & Hw & Hr).
      by destruct (advance_orderly d w r' (now st) r.2 (k r.1) (trace st)
                     (Hk _) (Hpark _ _ _ Hp _) Hw Hr (Hcount d)) as (Hle & _).
    + unfold writesFor, renamesFor. rewrite !countFor_other by done. apply Hcount.
Qed.

Lemma InvOrder_run st evs : InvOrder st → InvOrder (run st evs).
Proof.
  revert st. induction evs as [|e evs IH]; intros st H; [done|].
  simpl. apply IH. eapply InvOrder_Stepped; [done|apply step_Stepped].
Qed.

(** X9.  In a session, the closure of a destination starts its rename only
    after it has started the write of the temporary file: at any moment, the
    renames started for a destination are no more than the writes started for
    it, and a file is renamed onto a destination only when one was written
    for it. *)
Theorem rename_follows_write now0 disk0 evs d :
  let st := run (init now0 disk0) evs in
  renamesFor d (trace st) ≤ writesFor d (trace st)
  ∧ renamesTo d (trace st) ≤ writesFor d (trace st).
Proof.
  intros st. pose proof (InvOrder_run _ evs (InvOrder_init now0 disk0)) as [HI _ Hc].
  fold st in HI, Hc. split; [done|].
  rewrite renamesTo_tagged by apply HI. done.
Qed.

(** ** One closure for a destination, and its end *)

(** X13.  In a session, at most one closure is in flight for a destination:
    two pending promises of closures for the same destination are the same
    promise, the one in the locker. *)
Theorem one_closure_per_destination now0 disk0 evs p p' d c c' :
  let st := run (init now0 disk0) evs in
  heap st !! p = Some (Suspended d c) →
  heap st !! p' = Some (Suspended d c') →
  p = p' ∧ locker st !! d = Some p.
Proof.
  intros st Hp Hp'. pose proof (Inv_reachable now0 disk0 evs) as HI. fold st in HI.
  pose proof (inv_owner _ HI _ _ _ Hp) as H1.
  pose proof (inv_owner _ HI _ _ _ Hp') as H2.
  split; [congruence|done].
Qed.

Lemma settlesWithin_mono n n' c : n ≤ n' → settlesWithin n c → settlesWithin n' c.
Proof.
  revert n n'. induction c as [v|e|o k IH|o k IH]; intros n n' Hn; simpl; try done.
  - intros H x. by apply (IH x n n').
  - intros [H0 Hk]. split; [lia|]. intros x. apply (IH x (n - 1)); [lia|done].
Qed.

Lemma settlesWithin_runSync n t dk c : settlesWithin n c → settlesWithin n (runSync t dk c).
Proof.
  induction c as [v|e|o k IH|o k _]; simpl; try done.
  intros H. apply IH, H.
Qed.

(** The closure awaits four operations at most: [fs.stat], the
    verification, the write and the rename. *)
Lemma writeBody_settlesWithin buffer d mode integrity :
  settlesWithin 4 (writeBody buffer d mode integrity).
Proof.
  unfold writeBody, existsSame, writePath, commitPath, optimisticRenameOverwrite, await, call.
  simpl. split; [lia|].
  intros [e|s]; simpl.
  - split; [lia|]. intros [e'|[]]; simpl; [done|].
    intros t. split; [lia|]. intros [e'|[]]; simpl; [|done].
    destruct (negb (code e' =? "ENOENT")%string); simpl; [done|].
    intros []; simpl; done.
  - split; [lia|]. intros [e|[]]; simpl; [done|done|].
    split; [lia|]. intros [e'|[]]; simpl; [done|].
    intros t. split; [lia|]. intros [e'|[]]; simpl; [|done].
    destruct (negb (code e' =? "ENOENT")%string); simpl; [done|].
    intros []; simpl; done.
Qed.

Lemma resumes_one p e :
  resumes p [e] = if match e with Resume p' _ => p' =? p | _ => false end then 1 else 0.
Proof. unfold resumes. simpl. by destruct (match e with Resume p' _ => p' =? p | _ => false end). Qed.

Lemma settlingCell_Stepped n st e st' p :
  Stepped st e st' → settlingCell n st p →
  settlingCell (n - resumes p [e]) st' p.
Proof.
  intros Hs Hg. rewrite resumes_one. unfold settlingCell in *.
  destruct (heap st !! p) as [cell|] eqn:Hp; [|done].
  destruct Hs as [| |p' fault d o k Hp' r|p' fault Hidle|ms|]; cbn [heap setNow setDisk].
  - by rewrite (lookup_app_l_Some _ _ _ _ Hp), Nat.sub_0_r.
  - by rewrite (lookup_app_l_Some _ _ _ _ Hp), Nat.sub_0_r.
  - destruct (decide (p' = p)) as [->|Hne].
    + rewrite Nat.eqb_refl.
      rewrite list_lookup_insert_eq by by eapply lookup_lt_Some.
      rewrite Hp in Hp'. injection Hp' as ->. simpl in Hg. destruct Hg as [H0 Hk].
      pose proof (settlesWithin_runSync _ (now st) r.2 (k r.1) (Hk r.1)) as Hr.
      pose proof (runSync_not_sync (now st) r.2 (k r.1)) as Hns.
      destruct (runSync (now st) r.2 (k r.1)) as [v|e'|o' k'|o' k'];
        [done|done|by destruct (Hns o' k')|exact Hr].
    + rewrite list_lookup_insert_ne by done.
      apply Nat.eqb_neq in Hne. by rewrite Hne, Hp, Nat.sub_0_r.
  - destruct (Nat.eqb_spec p' p) as [->|Hne].
    + rewrite Hp in Hidle. rewrite Hp.
      destruct cell as [d [| | |o k]|o|q]; simpl in *; done.
    + by rewrite Hp, Nat.sub_0_r.
  - by rewrite Hp, Nat.sub_0_r.
  - by rewrite Hp, Nat.sub_0_r.
Qed.

Lemma settlingCell_run n st evs p :
  settlingCell n st p → settlingCell (n - resumes p evs) (run st evs) p.
Proof.
  revert n st. induction evs as [|e evs IH]; intros n st Hg.
  - unfold resumes. simpl. by rewrite Nat.sub_0_r.
  - simpl. pose proof (settlingCell_Stepped n st e _ p (step_Stepped st e) Hg) as H1.
    apply IH in H1.
    replace (n - resumes p (e :: evs)) with (n - resumes p [e] - resumes p evs); [done|].
    unfold resumes. simpl. destruct (match e with Resume p' _ => p' =? p | _ => false end);
      simpl; lia.
Qed.

(** X14.  The promise of a write is settled once four of the operations its
    closure awaited have completed, whatever their results and whatever else
    happens in between: the caller of [writeBufferToCafs] has its answer, a
    time or an error, after at most four completions. *)
Theorem closure_settles_within_four st evs cafsDir buffer fileDest mode integrity :
  locker st !! Path.join cafsDir fileDest = None →
  let cs := writeBufferToCafs cafsDir buffer fileDest mode integrity st in
  4 ≤ resumes (length (heap st)) evs →
  is_Some (outcome (run cs.2 evs) cs.1).
Proof.
  intros Hl cs Hn.
  assert (Hcs : cs = _) by apply (writeBufferToCafs_fresh cafsDir buffer fileDest mode integrity st Hl).
  set (d := Path.join cafsDir fileDest) in *. set (p := length (heap st)) in *.
  change (cellOf d (runSync (now st) (disk st) (writeBody buffer d mode integrity)))
    with (Suspended d (writeBody buffer d mode integrity)) in Hcs.
  assert (Hq : heap cs.2 !! cs.1 = Some (Outer p)).
  { rewrite Hcs. simpl. apply lookup_snoc2_snd. }
  assert (Hg : settlingCell 4 cs.2 p).
  { unfold settlingCell. rewrite Hcs. simpl. unfold p. rewrite lookup_snoc2_fst.
    apply writeBody_settlesWithin. }
  apply (settlingCell_run 4 cs.2 evs p) in Hg.
  rewrite (outcome_outer _ _ p) by by apply run_cell_outer.
  unfold settlingCell in Hg. unfold cellOutcome.
  destruct (heap (run cs.2 evs) !! p) as [[d' [| | |o k]|o|q]|]; try done.
  simpl in Hg. lia.
Qed.

End Cafs.

(** * Properties outside the session *)

Lemma join_joinAll a b : Path.join a b = Path.joinAll [a; b].
Proof.
  unfold Path.join, Path.joinAll. simpl.
  destruct (a =? "")%string eqn:Ea, (b =? "")%string eqn:Eb; simpl;
    rewrite ?Ea, ?Eb; done.
Qed.

(** X10.  Two processes never use the same temporary path for a file: the
    temporary paths of one file under different process ids differ. *)
Theorem pathTemp_pid_inj (pid pid' : N) file :
  pid ≠ pid' → pathTemp pid file ≠ pathTemp pid' file.
Proof.
  intros Hne E. apply Hne.
  apply (f_equal Path.basename) in E. rewrite !pathTemp_basename in E.
  apply (inj (String.append _)) in E. by apply decimal_inj.
Qed.

(** ** [link]: the targets *)

Lemma includes_In pkgNames n : Link.includes pkgNames n = true ↔ In n pkgNames.
Proof.
  unfold Link.includes. rewrite existsb_exists. split.
  - intros (x & Hx & ->%String.eqb_eq). done.
  - intros H. exists n. by rewrite String.eqb_refl.
Qed.

Lemma names_In input n :
  In n (List.filter (λ x, negb (Link.startsWithDot x)) input)
  ↔ In n input ∧ Link.startsWithDot n = false.
Proof. rewrite filter_In. by rewrite negb_true_iff. Qed.

(** The paths of [linkTargets], without the case on the names. *)
Lemma linkTargets_paths input workspace g flags :
  let pkgNames := List.filter (λ x, negb (Link.startsWithDot x)) input in
  let found :=
    match workspace with
    | Some wps => List.filter (λ pkg, Link.includes pkgNames (Link.name pkg)) wps
    | None => []
    end in
  (Link.linkTargets input workspace g flags).1 =
  (List.filter Link.startsWithDot input
   ++ List.map Link.path found
   ++ List.map (λ n, Path.joinAll [g; "node_modules"; n])
        (List.filter
           (λ n, negb (List.existsb (λ pkg, (Link.name pkg =? n)%string) found))
           pkgNames))%list
  ∧ (Link.linkTargets input workspace g flags).2 =
    match found with
    | [] => flags
    | _ =>
        if negb (Link.saveDev flags) && negb (Link.saveProd flags)
           && negb (Link.saveOptional flags)
        then {| Link.saveDev := Link.saveDev flags; Link.saveProd := true;
                Link.saveOptional := Link.saveOptional flags |}
        else flags
    end.
Proof.
  intros pkgNames found. unfold Link.linkTargets.
  rewrite partition_as_filter. fold pkgNames.
  assert (Hall : ∀ {A} (l : list A), List.filter (λ _, true) l = l).
  { intros A l. induction l as [|x l IH]; [done|]. simpl. by rewrite IH. }
  destruct workspace as [wps|]; unfold found.
  - destruct pkgNames as [|n0 names] eqn:E.
    + assert (List.filter (λ pkg, Link.includes [] (Link.name pkg)) wps = []) as ->.
      { induction wps as [|pkg wps IH]; [done|]. simpl. done. }
      cbv beta iota zeta delta [fst snd]. simpl. by rewrite app_nil_r.
    + cbv beta iota zeta delta [fst snd]. by rewrite <- app_assoc.
  - destruct pkgNames as [|n0 names] eqn:E.
    + cbv beta iota zeta delta [fst snd]. simpl. by rewrite app_nil_r.
    + cbv beta iota zeta delta [fst snd].
      change (List.filter _ (n0 :: names)) with (List.filter (λ _ : string, true) (n0 :: names)).
      by rewrite Hall.
Qed.

Lemma linkTargets_In_cases input workspace g flags p :
  In p (Link.linkTargets input workspace g flags).1 ↔
    (In p input ∧ Link.startsWithDot p = true)
    ∨ (∃ wps pkg, workspace = Some wps ∧ In pkg wps
         ∧ In (Link.name pkg) input ∧ Link.startsWithDot (Link.name pkg) = false
         ∧ Link.path pkg = p)
    ∨ (∃ n, In n input ∧ Link.startsWithDot n = false
         ∧ (∀ wps pkg, workspace = Some wps → In pkg wps → Link.name pkg ≠ n)
         ∧ p = Path.joinAll [g; "node_modules"; n]).
Proof.
  destruct (linkTargets_paths input workspace g flags) as [-> _].
  rewrite !in_app_iff, filter_In, !in_map_iff.
  apply or_iff_compat_l.
  set (pkgNames := List.filter (λ x, negb (Link.startsWithDot x)) input).
  destruct workspace as [wps|].
  - apply Morphisms_Prop.or_iff_morphism.
    + split.
      * intros (pkg & <- & [Hin Hinc]%filter_In).
        apply includes_In, names_In in Hinc as [H1 H2]. by exists wps, pkg.
      * intros (wps' & pkg & [= <-] & Hin & H1 & H2 & <-).
        exists pkg. split; [done|]. apply filter_In. split; [done|].
        by apply includes_In, names_In.
    + split.
      * intros (n & <- & [[H1 H2]%names_In Hno]%filter_In).
        exists n. repeat split; try done.
        intros wps' pkg [= <-] Hin <-.
        apply negb_true_iff in Hno. revert Hno.
        apply not_false_iff_true, existsb_exists. exists pkg. split.
        -- apply filter_In. split; [done|]. by apply includes_In, names_In.
        -- apply String.eqb_refl.
      * intros (n & H1 & H2 & Hno & ->). exists n. split; [done|].
        apply filter_In. split; [by apply names_In|].
        apply negb_true_iff, not_true_iff_false.
        intros (pkg & [Hin _]%filter_In & Heq%String.eqb_eq)%existsb_exists.
        by apply (Hno wps pkg).
  - simpl. split.
    + intros [(pkg & _ & [])|(n & <- & [[H1 H2]%names_In _]%filter_In)].
      right. exists n. by repeat split.
    + intros [(wps & pkg & [=] & _)|(n & H1 & H2 & _ & ->)].
      right. exists n. split; [done|]. apply filter_In. split; [|done].
      by apply names_In.
Qed.

(** X11.  What [link] installs and links, for each input.  A path [p] is
    among the targets exactly when: [p] is an input that starts with a dot;
    or [p] is the path of a package of the workspace whose name is an input;
    or [p] is [node_modules/n] under the global prefix for an input [n] that
    names no package of the workspace.  So an input that does not start with
    a dot is taken from the workspace when it names a package there, from
    the global directory otherwise, and never from both. *)
Theorem linkTargets_In input workspace g flags p :
  (In p (Link.linkTargets input workspace g flags).1 ↔
     (In p input ∧ Link.startsWithDot p = true)
     ∨ (∃ wps pkg, workspace = Some wps ∧ In pkg wps
          ∧ In (Link.name pkg) input ∧ Link.startsWithDot (Link.name pkg) = false
          ∧ Link.path pkg = p)
     ∨ (∃ n, In n input ∧ Link.startsWithDot n = false
          ∧ (∀ wps pkg, workspace = Some wps → In pkg wps → Link.name pkg ≠ n)
          ∧ p = Path.joinAll [g; "node_modules"; n]))
  ∧ (∀ n wps pkg, In n input → Link.startsWithDot n = false →
       workspace = Some wps → In pkg wps → Link.name pkg = n →
       In (Link.path pkg) (Link.linkTargets input workspace g flags).1
       ∧ ¬ In n (List.filter
                   (λ n, negb (List.existsb (λ pkg, (Link.name pkg =? n)%string) wps))
                   input)).
Proof.
  split; [apply linkTargets_In_cases|].
  intros n wps pkg Hn Hdot -> Hpkg <-. split.
  - apply linkTargets_In_cases. right. left. by exists wps, pkg.
  - intros [_ Hno]%filter_In. apply negb_true_iff, not_true_iff_false in Hno.
    apply Hno, existsb_exists. exists pkg. split; [done|]. apply String.eqb_refl.
Qed.

(** X12.  [link] never changes [saveDev] nor [saveOptional]; it leaves
    [saveProd] on when it was on, and switches it on exactly when neither
    [saveDev] nor [saveOptional] is set and an input that does not start
    with a dot names a package of the workspace. *)
Theorem linkTargets_flags input workspace g flags :
  let flags' := (Link.linkTargets input workspace g flags).2 in
  Link.saveDev flags' = Link.saveDev flags
  ∧ Link.saveOptional flags' = Link.saveOptional flags
  ∧ (Link.saveProd flags' = true ↔
       Link.saveProd flags = true
       ∨ (Link.saveDev flags = false ∧ Link.saveOptional flags = false
          ∧ ∃ wps pkg, workspace = Some wps ∧ In pkg wps
              ∧ In (Link.name pkg) input
              ∧ Link.startsWithDot (Link.name pkg) = false)).
Proof.
  intros flags'. unfold flags'.
  destruct (linkTargets_paths input workspace g flags) as [_ ->].
  set (pkgNames := List.filter (λ x, negb (Link.startsWithDot x)) input).
  assert (Hfound : ∀ wps pkg, workspace = Some wps →
    (In pkg (List.filter (λ pkg, Link.includes pkgNames (Link.name pkg)) wps)
     ↔ In pkg wps ∧ In (Link.name pkg) input
       ∧ Link.startsWithDot (Link.name pkg) = false)).
  { intros wps pkg _. rewrite filter_In, includes_In. unfold pkgNames.
    by rewrite names_In. }
  destruct workspace as [wps|].
  - destruct (List.filter _ wps) as [|pkg0 found] eqn:E.
    + repeat split; try done; [by left|].
      intros [H|(_ & _ & wps' & pkg & [= <-] & Hp)]; [done|].
      apply (Hfound wps pkg eq_refl) in Hp. by rewrite E in Hp.
    + assert (Hex : ∃ wps' pkg, Some wps = Some wps' ∧ In pkg wps'
                      ∧ In (Link.name pkg) input
                      ∧ Link.startsWithDot (Link.name pkg) = false).
      { exists wps, pkg0. split; [done|]. apply (Hfound wps pkg0 eq_refl).
        rewrite E. by left. }
      destruct flags as [[] [] []]; simpl; repeat split; try done;
        try (by left); try (by right); by intros [?|(? & ? & _)].
  - simpl. repeat split; try done; [by left|].
    by intros [H|(_ & _ & wps & pkg & [=] & _)].
Qed.

(** X15.  No input of [link] is dropped.  With a non-empty input the command
    installs and links into [node_modules] of the working directory, and for
    every input there is a target: the input itself when it starts with a
    dot, else the path of a package of the workspace of that name, else
    [node_modules/<input>] under the global prefix. *)
Theorem plan_serves_every_input input prefix processCwd workspace g flags inp :
  In inp input →
  ∃ pkgPaths flags',
    Link.plan (Some input) prefix processCwd workspace g flags
    = Link.LinkLocal pkgPaths
        (Path.join (if (prefix =? "")%string then processCwd else prefix) "node_modules")
        flags'
    ∧ ∃ p, In p pkgPaths
        ∧ (p = inp
           ∨ (∃ wps pkg, workspace = Some wps ∧ In pkg wps
                ∧ Link.name pkg = inp ∧ Link.path pkg = p)
           ∨ p = Path.joinAll [g; "node_modules"; inp]).
Proof.
  intros Hin. unfold Link.plan.
  destruct input as [|i rest]; [done|].
  pose proof (linkTargets_In_cases (i :: rest) workspace g flags) as HIn.
  destruct (Link.linkTargets (i :: rest) workspace g flags) as [pkgPaths flags'].
  exists pkgPaths, flags'. split; [done|]. simpl in HIn.
  destruct (Link.startsWithDot inp) eqn:Hdot.
  - exists inp. split; [|by left]. apply HIn. by left.
  - assert (Hdec : (∃ wps pkg, workspace = Some wps ∧ In pkg wps ∧ Link.name pkg = inp)
                   ∨ (∀ wps pkg, workspace = Some wps → In pkg wps → Link.name pkg ≠ inp)).
    { destruct workspace as [wps|]; [|by right].
      destruct (existsb (λ pkg, (Link.name pkg =? inp)%string) wps) eqn:E.
      - apply existsb_exists in E as (pkg & Hp & Heq%String.eqb_eq). left. by exists wps, pkg.
      - right. intros wps' pkg [= <-] Hp Hn.
        apply not_true_iff_false in E. apply E, existsb_exists.
        exists pkg. split; [done|]. by apply String.eqb_eq. }
    destruct Hdec as [(wps & pkg & -> & Hp & <-)|Hno].
    + exists (Link.path pkg). split.
      * apply HIn. right. left. by exists wps, pkg.
      * right. left. by exists wps, pkg.
    + exists (Path.joinAll [g; "node_modules"; inp]). split; [|by right; right].
      apply HIn. right. right. by exists inp.
Qed.

(** * Instances *)

Local Open Scope nat_scope.

(** C3, as the specification states it, fails: the temporary names of
    "foo-other" and of "foo" are not distinct. *)
Lemma pathTemp_other_not_distinct :
  ¬ (∀ (pid : N) (fexec fother fplain : string),
       Path.basename fexec = "foo-exec" →
       Path.basename fother = "foo-other" →
       Path.basename fplain = "foo" →
       Path.dirname fother = Path.dirname fexec →
       Path.dirname fplain = Path.dirname fexec →
       (∃ pre, pathTemp pid fexec = pre ++ "x" ++ decimal pid)
       ∧ pathTemp pid fexec ≠ pathTemp pid fother
       ∧ pathTemp pid fexec ≠ pathTemp pid fplain
       ∧ pathTemp pid fother ≠ pathTemp pid fplain).
Proof.
  intros H.
  destruct (H 4242%N "/store/ab/foo-exec" "/store/ab/foo-other" "/store/ab/foo")
    as (_ & _ & _ & Hne); try reflexivity.
  apply Hne. reflexivity.
Qed.

(** The temporary names of three files of [/store/ab], for process 4242. *)
Lemma pathTemp_exec_marker_witness :
  Path.basename (pathTemp 4242 "/store/ab/foo-exec") = "foo" ++ "x" ++ decimal 4242
  ∧ (∃ pre, pathTemp 4242 "/store/ab/foo-exec" = pre ++ "x" ++ decimal 4242)
  ∧ pathTemp 4242 "/store/ab/foo-exec" ≠ pathTemp 4242 "/store/ab/foo-other"
  ∧ pathTemp 4242 "/store/ab/foo-exec" ≠ pathTemp 4242 "/store/ab/foo"
  ∧ pathTemp 4242 "/store/ab/foo-other" = pathTemp 4242 "/store/ab/foo".
Proof.
  apply (pathTemp_exec_marker 4242 "/store/ab/foo-exec" "/store/ab/foo-other" "/store/ab/foo");
    reflexivity.
Defined.

(** Two calls for [/store/ab/cd1234], the second while the first write is in
    flight and under another spelling of the path. *)
Lemma calls_share_one_write_witness :
  Path.join "/store" "ab/cd1234" = Path.join "/store/" "./ab/cd1234"
  ∧ let d := Path.join "/store" "ab/cd1234" in
    let s1 := run plainCheck 4242 (init 1000 ∅) [] in
    let c1 := writeBufferToCafs 4242 "/store" helloBytes "ab/cd1234" (Some 420%N)
                helloIntegrity s1 in
    let s2 := run plainCheck 4242 c1.2 [Tick 5; Resume 0 None] in
    let c2 := writeBufferToCafs 4242 "/store/" [] "./ab/cd1234" None helloIntegrity s2 in
    let s3 := run plainCheck 4242 c2.2 [Tick 3; Resume 0 None; Tick 2; Resume 0 None] in
    outcome s3 c1.1 = outcome s3 c2.1
    ∧ writesFor d (trace s3) ≤ 1
    ∧ renamesFor d (trace s3) ≤ 1
    ∧ renamesTo d (trace s3) ≤ 1
    ∧ ∃ p, locker c1.2 !! d = Some p
           ∧ heap s3 !! c1.1 = Some (Outer p)
           ∧ heap s3 !! c2.1 = Some (Outer p).
Proof.
  split; [reflexivity|].
  apply (calls_share_one_write plainCheck 4242 1000 ∅
           [] [Tick 5; Resume 0 None] [Tick 3; Resume 0 None; Tick 2; Resume 0 None]
           "/store" helloBytes "ab/cd1234" (Some 420%N) helloIntegrity
           "/store/" [] "./ab/cd1234" None helloIntegrity).
  reflexivity.
Defined.

(** The temporary file is gone: with a file at the destination the rename is
    taken as done, without one the error is thrown again. *)
Lemma optimisticRenameOverwrite_tolerates_race_witness :
  let dk : Disk := {[ "/store/ab/cd1234" := helloFile ]} in
  (renameOverwrite None dk "/store/ab/cd12344242" "/store/ab/cd1234").1
  = inl (enoent "rename" "/store/ab/cd12344242")
  ∧ (resume plainCheck None 1000 dk
       (optimisticRenameOverwrite "/store/ab/cd12344242" "/store/ab/cd1234")).1 = Ret tt
  ∧ (resume plainCheck None 1000 ∅
       (optimisticRenameOverwrite "/store/ab/cd12344242" "/store/ab/cd1234")).1
    = Throw (enoent "rename" "/store/ab/cd12344242").
Proof.
  split; [reflexivity|]. split.
  - apply (optimisticRenameOverwrite_tolerates_race plainCheck None 1000
             {[ "/store/ab/cd1234" := helloFile ]}
             "/store/ab/cd12344242" "/store/ab/cd1234"
             (enoent "rename" "/store/ab/cd12344242")).
    + reflexivity.
    + reflexivity.
    + exists helloFile. reflexivity.
  - apply (optimisticRenameOverwrite_tolerates_race plainCheck None 1000 ∅
             "/store/ab/cd12344242" "/store/ab/cd1234"
             (enoent "rename" "/store/ab/cd12344242")).
    + reflexivity.
    + right. reflexivity.
Defined.

(** [fs.stat] fails on an empty store, and for want of permission. *)
Lemma existsSame_folds_stat_errors_witness :
  (∅ : Disk) !! "/store/ab/cd1234" = None
  ∧ resume plainCheck None 1000 ∅ (existsSame "/store/ab/cd1234" helloIntegrity)
    = (Ret false, ∅)
  ∧ resume plainCheck (Some eacces) 1000 {[ "/store/ab/cd1234" := helloFile ]}
      (writeBody 4242 helloBytes "/store/ab/cd1234" None helloIntegrity)
    = (writePath 4242 helloBytes "/store/ab/cd1234" None,
       {[ "/store/ab/cd1234" := helloFile ]}).
Proof.
  split; [reflexivity|]. split.
  - apply (existsSame_folds_stat_errors plainCheck 4242 None 1000 ∅
             "/store/ab/cd1234" helloIntegrity).
    left. reflexivity.
  - apply (existsSame_folds_stat_errors plainCheck 4242 (Some eacces) 1000
             {[ "/store/ab/cd1234" := helloFile ]} "/store/ab/cd1234" helloIntegrity).
    right. exists eacces. reflexivity.
Defined.

(** The destination already holds the bytes of the buffer. *)
Lemma skip_on_match_witness :
  let disk0 : Disk := {[ "/store/ab/cd1234" := helloFile ]} in
  let d := Path.join "/store" "ab/cd1234" in
  let st := run plainCheck 4242 (init 1000 disk0) [] in
  let cs := writeBufferToCafs 4242 "/store" helloBytes "ab/cd1234" (Some 420%N)
              helloIntegrity st in
  let s1 := run plainCheck 4242 cs.2 [Tick 5] in
  let s2 := run plainCheck 4242 (step plainCheck 4242 s1 (Resume 0 None)) [Tick 2] in
  let s3 := run plainCheck 4242 (step plainCheck 4242 s2 (Resume 0 None))
              [Tick 1; Resume 0 None] in
  (locker st !! d = None
   ∧ plainCheck (content helloFile) helloIntegrity = true
   ∧ disk s1 !! d = Some helloFile
   ∧ disk s2 !! d = Some helloFile)
  ∧ outcome s3 cs.1 = Some (Fulfilled (now s2))
  ∧ (now st ≤ now s2)%N
  ∧ tagged d (trace s3) =
      [(d, EAwait (Stat d));
       (d, EAwait (VerifyFileIntegrity d
                     {| expectedSize := N.of_nat (length (content helloFile));
                        expectedIntegrity := helloIntegrity |}));
       (d, ESync DateNow)]
  ∧ writesFor d (trace s3) = 0
  ∧ renamesFor d (trace s3) = 0
  ∧ renamesTo d (trace s3) = 0.
Proof.
  split; [repeat split; reflexivity|].
  apply (skip_on_match plainCheck 4242 1000 {[ "/store/ab/cd1234" := helloFile ]}
           [] [Tick 5] [Tick 2] [Tick 1; Resume 0 None]
           "/store" helloBytes "ab/cd1234" (Some 420%N) helloIntegrity helloFile);
    reflexivity.
Defined.

(** A write that ended at time 1004, asked for again. *)
Lemma resolved_entry_short_circuits_witness :
  let c1 := writeBufferToCafs 4242 "/store" helloBytes "ab/cd1234" (Some 420%N)
              helloIntegrity (init 1000 ∅) in
  let s := run plainCheck 4242 c1.2
             [Resume 0 None; Tick 4; Resume 0 None; Tick 1; Resume 0 None] in
  let c2 := writeBufferToCafs 4242 "/store" helloBytes "ab/cd1234" (Some 420%N)
              helloIntegrity s in
  outcome s c1.1 = Some (Fulfilled 1004)
  ∧ outcome c2.2 c2.1 = Some (Fulfilled 1004)
  ∧ trace c2.2 = trace s
  ∧ disk c2.2 = disk s.
Proof.
  split; [reflexivity|].
  apply (proj2 (resolved_entry_short_circuits plainCheck 4242
                  "/store" helloBytes "ab/cd1234" (Some 420%N) helloIntegrity)
           (init 1000 ∅)
           [Resume 0 None; Tick 4; Resume 0 None; Tick 1; Resume 0 None] 1004%N).
  reflexivity.
Defined.

(** Two callers, and a disk that is full when the temporary file is
    written. *)
Lemma fatal_error_reaches_every_caller_witness :
  let d := Path.join "/store" "ab/cd1234" in
  let c1 := writeBufferToCafs 4242 "/store" helloBytes "ab/cd1234" None helloIntegrity
              (init 1000 ∅) in
  let s1 := run plainCheck 4242 c1.2 [Tick 1] in
  let c2 := writeBufferToCafs 4242 "/store" helloBytes "ab/cd1234" None helloIntegrity s1 in
  let s2 := run plainCheck 4242 c2.2 [Resume 0 None] in
  let s3 := run plainCheck 4242 (step plainCheck 4242 s2 (Resume 0 (Some enospc)))
              [Tick 7; Resume 0 None] in
  (locker s2 !! d = Some 0
   ∧ heap s2 !! 0 = Some (Suspended d (writePath 4242 helloBytes d None)))
  ∧ outcome s3 c1.1 = Some (Rejected enospc)
  ∧ outcome s3 c2.1 = Some (Rejected enospc).
Proof.
  split; [split; reflexivity|].
  apply (fatal_error_reaches_every_caller plainCheck 4242 (init 1000 ∅)
           [Tick 1] [Resume 0 None] [Tick 7; Resume 0 None] 0 (Some enospc) enospc
           "/store" helloBytes "ab/cd1234" None helloIntegrity
           "/store" helloBytes "ab/cd1234" None helloIntegrity).
  - reflexivity.
  - reflexivity.
  - left. exists (Path.join "/store" "ab/cd1234"), helloBytes, None.
    split; reflexivity.
Defined.

(** The first call of a session, at time 1000.  The temporary file is
    written at time 1003; before the rename completes, at time 1012, another
    process removes it and puts a file at the destination.  The caller is
    given 1003. *)
Lemma birthtime_captured_before_commit_witness :
  let d := Path.join "/store" "ab/cd1234" in
  let temp := pathTemp 4242 d in
  let cs := writeBufferToCafs 4242 "/store" helloBytes "ab/cd1234" None helloIntegrity
              (init 1000 ∅) in
  let s0 := run plainCheck 4242 cs.2 [Resume 0 None; Tick 3] in
  let s1 := step plainCheck 4242 s0 (Resume 0 None) in
  let s2 := run plainCheck 4242 s1
              [Tick 9; External temp None; External d (Some helloFile)] in
  let s3 := run plainCheck 4242 (step plainCheck 4242 s2 (Resume 0 None)) [Tick 5] in
  (locker cs.2 !! d = Some 0
   ∧ heap s0 !! 0 = Some (Suspended d (writePath 4242 helloBytes d None)))
  ∧ disk s1 !! temp = Some {| content := helloBytes; fmode := None |}
  ∧ outcome s1 cs.1 = None
  ∧ (renameOverwrite None (disk s2) temp d).1 = inl (enoent "rename" temp)
  ∧ now s2 = 1012%N
  ∧ outcome s3 cs.1 = Some (Fulfilled 1003).
Proof.
  split; [split; reflexivity|].
  pose proof (birthtime_captured_before_commit plainCheck 4242
                (init 1000 ∅) [Resume 0 None; Tick 3] 0
                "/store" helloBytes "ab/cd1234" None helloIntegrity helloBytes None
                eq_refl eq_refl)
    as (Hdisk & _ & _ & Hpending & Hlater).
  split; [exact Hdisk|]. split; [exact Hpending|].
  split; [reflexivity|]. split; [reflexivity|].
  destruct (Hlater [Tick 9;
                    External (pathTemp 4242 (Path.join "/store" "ab/cd1234")) None;
                    External (Path.join "/store" "ab/cd1234") (Some helloFile)]
                   None [Tick 5] eq_refl) as (_ & _ & _ & Hrace).
  exact Hrace.
Defined.

(** A second call for the same path, with another buffer, no mode and
    another descriptor. *)
Lemma locker_keyed_on_path_witness :
  let d := "/store/ab/cd1234" in
  let st := run plainCheck 4242 (init 1000 ∅)
              [Call "/store" helloBytes "ab/cd1234" (Some 420%N) helloIntegrity] in
  let s := run plainCheck 4242 st [Tick 2] in
  let other := {| algorithm := "sha512"; digest := "another" |} in
  (locker st !! d = Some 0
   ∧ Path.join "/store" "ab/cd1234" = d
   ∧ Path.join "/store/ab/.." "ab/./cd1234" = d)
  ∧ writeBufferToCafs 4242 "/store" helloBytes "ab/cd1234" (Some 420%N) helloIntegrity s
    = writeBufferToCafs 4242 "/store/ab/.." [] "ab/./cd1234" None other s
  ∧ writeBufferToCafs 4242 "/store" helloBytes "ab/cd1234" (Some 420%N) helloIntegrity s
    = (length (heap s),
       {| now := now s; disk := disk s; locker := locker s;
          heap := heap s ++ [Outer 0]; trace := trace s |})
  ∧ outcome (writeBufferToCafs 4242 "/store" helloBytes "ab/cd1234" (Some 420%N)
               helloIntegrity s).2
            (writeBufferToCafs 4242 "/store" helloBytes "ab/cd1234" (Some 420%N)
               helloIntegrity s).1
    = cellOutcome s 0.
Proof.
  split; [repeat split; reflexivity|].
  apply (locker_keyed_on_path plainCheck 4242
           (run plainCheck 4242 (init 1000 ∅)
              [Call "/store" helloBytes "ab/cd1234" (Some 420%N) helloIntegrity])
           [Tick 2] "/store/ab/cd1234" 0
           "/store" helloBytes "ab/cd1234" (Some 420%N) helloIntegrity
           "/store/ab/.." [] "ab/./cd1234" None
           {| algorithm := "sha512"; digest := "another" |});
    reflexivity.
Defined.

(** A write failed on a full disk; a minute later the destination is asked
    for again. *)
Lemma failed_write_is_cached_witness :
  let d := "/store/ab/cd1234" in
  let st := run plainCheck 4242 (init 1000 ∅)
              [Call "/store" helloBytes "ab/cd1234" None helloIntegrity;
               Resume 0 None; Resume 0 (Some enospc)] in
  let s := run plainCheck 4242 st [Tick 60000] in
  let cs := writeBufferToCafs 4242 "/store" helloBytes "ab/cd1234" None helloIntegrity s in
  (locker st !! d = Some 0
   ∧ heap st !! 0 = Some (Settled (Rejected enospc))
   ∧ Path.join "/store" "ab/cd1234" = d)
  ∧ outcome cs.2 cs.1 = Some (Rejected enospc)
  ∧ trace cs.2 = trace s
  ∧ disk cs.2 = disk s
  ∧ locker cs.2 !! d = Some 0
  ∧ outcome (run plainCheck 4242 cs.2 [Resume 0 None; Tick 1]) cs.1
    = Some (Rejected enospc).
Proof.
  split; [repeat split; reflexivity|].
  apply (failed_write_is_cached plainCheck 4242
           (run plainCheck 4242 (init 1000 ∅)
              [Call "/store" helloBytes "ab/cd1234" None helloIntegrity;
               Resume 0 None; Resume 0 (Some enospc)])
           [Tick 60000] [Resume 0 None; Tick 1] "/store/ab/cd1234" 0 enospc
           "/store" helloBytes "ab/cd1234" None helloIntegrity);
    reflexivity.
Defined.

(** ** Instances of the further properties *)

(** An index file of the store, and an executable. *)
Lemma removeSuffix_by_suffix_witness :
  hasChar dash "cd1234" = false
  ∧ removeSuffix "cd1234" = "cd1234"
  ∧ removeSuffix "cd1234-exec" = "cd1234x"
  ∧ removeSuffix "cd1234-index.json" = "cd1234".
Proof.
  split; [reflexivity|].
  destruct (removeSuffix_by_suffix "cd1234" "index.json" eq_refl) as (H1 & H2 & H3).
  split; [exact H1|]. split; [exact H2|]. apply H3. discriminate.
Defined.

(** Two spellings of the path of one executable of the store. *)
Lemma pathTemp_store_names_witness :
  (Path.basename "/store/ab/cd1234-exec" = "cd1234" ++ "-exec"
   ∧ Path.basename "/store/ab/./cd1234-exec" = "cd1234" ++ "-exec"
   ∧ hasChar dash "cd1234" = false
   ∧ hasChar "x" "cd1234" = false
   ∧ pathTemp 4242 "/store/ab/cd1234-exec" = pathTemp 4242 "/store/ab/./cd1234-exec")
  ∧ Path.basename "/store/ab/cd1234-exec" = Path.basename "/store/ab/./cd1234-exec".
Proof.
  split; [repeat split; reflexivity|].
  apply (pathTemp_store_names 4242 "/store/ab/cd1234-exec" "/store/ab/./cd1234-exec"
           "cd1234" "cd1234" true true);
    reflexivity.
Defined.

(** The write started by the closure of [/store/ab/cd1234]. *)
Lemma closure_effects_on_own_paths_witness :
  let d := "/store/ab/cd1234" in
  let st := run plainCheck 4242 (init 1000 ∅)
              [Call "/store" helloBytes "ab/cd1234" None helloIntegrity; Resume 0 None] in
  trace st !! 1 = Some (d, EAwait (WriteFile "/store/ab/cd12344242" helloBytes None))
  ∧ is_Some (locker st !! d)
  ∧ "/store/ab/cd12344242" = pathTemp 4242 d
  ∧ "/store/ab/cd12344242" ≠ d.
Proof.
  split; [reflexivity|].
  apply (closure_effects_on_own_paths plainCheck 4242 1000 ∅
           [Call "/store" helloBytes "ab/cd1234" None helloIntegrity; Resume 0 None]
           "/store/ab/cd1234"
           (EAwait (WriteFile "/store/ab/cd12344242" helloBytes None))).
  apply (list_elem_of_lookup_2 _ 1). reflexivity.
Defined.

(** A write on an empty store, the rename completing two milliseconds after
    the write. *)
Lemma write_commits_buffer_witness :
  let d := Path.join "/store" "ab/cd1234" in
  let written := {| content := helloBytes; fmode := Some 420%N |} in
  let st := run plainCheck 4242 (init 1000 ∅)
              [Call "/store" helloBytes "ab/cd1234" (Some 420%N) helloIntegrity;
               Resume 0 None] in
  let s1 := step plainCheck 4242 st (Resume 0 None) in
  let s2 := run plainCheck 4242 s1 [Tick 2] in
  let s3 := step plainCheck 4242 s2 (Resume 0 None) in
  (heap st !! 0 = Some (Suspended d (writePath 4242 helloBytes d (Some 420%N)))
   ∧ disk s2 !! pathTemp 4242 d = Some written)
  ∧ disk s3 !! d = Some written
  ∧ disk s3 !! pathTemp 4242 d = None
  ∧ (∀ path, path ≠ d → path ≠ pathTemp 4242 d → disk s3 !! path = disk s2 !! path)
  ∧ cellOutcome s3 0 = Some (Fulfilled (now st)).
Proof.
  split; [split; reflexivity|].
  apply (write_commits_buffer plainCheck 4242
           (run plainCheck 4242 (init 1000 ∅)
              [Call "/store" helloBytes "ab/cd1234" (Some 420%N) helloIntegrity;
               Resume 0 None])
           0 (Path.join "/store" "ab/cd1234") helloBytes (Some 420%N) [Tick 2]);
    reflexivity.
Defined.

(** A call at time 1000, answered at time 1010 with the time 1005. *)
Lemma timestamp_between_call_and_delivery_witness :
  let cs := writeBufferToCafs 4242 "/store" helloBytes "ab/cd1234" None helloIntegrity
              (init 1000 ∅) in
  let evs := [Tick 1; Resume 0 None; Tick 4; Resume 0 None; Tick 5; Resume 0 None] in
  (locker (init 1000 ∅) !! Path.join "/store" "ab/cd1234" = None
   ∧ outcome (run plainCheck 4242 cs.2 evs) cs.1 = Some (Fulfilled 1005))
  ∧ (now (init 1000 ∅) ≤ 1005 ≤ now (run plainCheck 4242 cs.2 evs))%N.
Proof.
  split; [split; reflexivity|].
  apply (timestamp_between_call_and_delivery plainCheck 4242 (init 1000 ∅)
           [Tick 1; Resume 0 None; Tick 4; Resume 0 None; Tick 5; Resume 0 None]
           "/store" helloBytes "ab/cd1234" None helloIntegrity 1005%N);
    reflexivity.
Defined.

(** Two processes, one file. *)
Lemma pathTemp_pid_inj_witness :
  (4242 ≠ 4243)%N
  ∧ pathTemp 4242 "/store/ab/cd1234" ≠ pathTemp 4243 "/store/ab/cd1234".
Proof.
  split; [discriminate|].
  apply (pathTemp_pid_inj 4242 4243 "/store/ab/cd1234"). discriminate.
Defined.

(** The one closure in flight after two calls for a destination. *)
Lemma one_closure_per_destination_witness :
  let d := Path.join "/store" "ab/cd1234" in
  let st := run plainCheck 4242 (init 1000 ∅)
              [Call "/store" helloBytes "ab/cd1234" None helloIntegrity;
               Call "/store" helloBytes "ab/cd1234" None helloIntegrity] in
  heap st !! 0 = Some (Suspended d (writeBody 4242 helloBytes d None helloIntegrity))
  ∧ 0 = 0 ∧ locker st !! d = Some 0.
Proof.
  split; [reflexivity|].
  apply (one_closure_per_destination plainCheck 4242 1000 ∅
           [Call "/store" helloBytes "ab/cd1234" None helloIntegrity;
            Call "/store" helloBytes "ab/cd1234" None helloIntegrity]
           0 0 (Path.join "/store" "ab/cd1234")
           (writeBody 4242 helloBytes (Path.join "/store" "ab/cd1234") None helloIntegrity)
           (writeBody 4242 helloBytes (Path.join "/store" "ab/cd1234") None helloIntegrity));
    reflexivity.
Defined.

(** Four completions, the second one a failure of the check of a file that
    is there. *)
Lemma closure_settles_within_four_witness :
  let st := init 1000 {[ "/store/ab/cd1234" := helloFile ]} in
  let cs := writeBufferToCafs 4242 "/store" [] "ab/cd1234" None helloIntegrity st in
  let evs := [Resume 0 None; Tick 1; Resume 0 (Some eacces); Resume 0 None;
              External "/store/ab/cd1234" None; Resume 0 None] in
  (locker st !! Path.join "/store" "ab/cd1234" = None
   ∧ 4 ≤ resumes (length (heap st)) evs)
  ∧ is_Some (outcome (run plainCheck 4242 cs.2 evs) cs.1).
Proof.
  split; [split; [reflexivity|apply Nat.le_refl]|].
  apply (closure_settles_within_four plainCheck 4242
           (init 1000 {[ "/store/ab/cd1234" := helloFile ]})
           [Resume 0 None; Tick 1; Resume 0 (Some eacces); Resume 0 None;
            External "/store/ab/cd1234" None; Resume 0 None]
           "/store" [] "ab/cd1234" None helloIntegrity).
  - reflexivity.
  - apply Nat.le_refl.
Defined.

(** [pnpm link ../lib foo bar] in a workspace that has a package [foo]. *)
Lemma plan_serves_every_input_witness :
  let workspace := Some [ {| Link.name := "foo"; Link.path := "/ws/packages/foo" |} ] in
  let flags := {| Link.saveDev := false; Link.saveProd := false;
                  Link.saveOptional := false |} in
  In "foo" ["../lib"; "foo"; "bar"]
  ∧ ∃ pkgPaths flags',
      Link.plan (Some ["../lib"; "foo"; "bar"]) "" "/ws/app" workspace "/usr/local" flags
      = Link.LinkLocal pkgPaths (Path.join "/ws/app" "node_modules") flags'
      ∧ ∃ p, In p pkgPaths
          ∧ (p = "foo"
             ∨ (∃ wps pkg, workspace = Some wps ∧ In pkg wps
                  ∧ Link.name pkg = "foo" ∧ Link.path pkg = p)
             ∨ p = Path.joinAll ["/usr/local"; "node_modules"; "foo"]).
Proof.
  split; [right; left; reflexivity|].
  apply (plan_serves_every_input ["../lib"; "foo"; "bar"] "" "/ws/app"
           (Some [ {| Link.name := "foo"; Link.path := "/ws/packages/foo" |} ])
           "/usr/local"
           {| Link.saveDev := false; Link.saveProd := false; Link.saveOptional := false |}
           "foo").
  right. left. reflexivity.
Defined.

(** * Worked examples *)

Example join_normalizes :
  Path.join "/store/v3/files" "ab/cd1234" = "/store/v3/files/ab/cd1234"
  ∧ Path.join "/store//v3/" "../x/./y-exec" = "/store/x/y-exec"
  ∧ Path.join "a/.." "" = "."
  ∧ Path.join "" "../a/" = "../a/".
Proof. repeat split; reflexivity. Qed.

Example basename_dirname :
  Path.basename "/store/ab/cd-exec" = "cd-exec"
  ∧ Path.basename "a/b//" = "b"
  ∧ Path.basename "/" = ""
  ∧ Path.dirname "/store/ab/cd-exec" = "/store/ab"
  ∧ Path.dirname "a//b" = "a/"
  ∧ Path.dirname "/a" = "/"
  ∧ Path.dirname "//a" = "//"
  ∧ Path.dirname "a" = "."
  ∧ Path.dirname "a/b/" = "a".
Proof. repeat split; reflexivity. Qed.

Example removeSuffix_samples :
  removeSuffix "cd1234-exec" = "cd1234x"
  ∧ removeSuffix "cd1234-index.json" = "cd1234"
  ∧ removeSuffix "cd1234" = "cd1234"
  ∧ removeSuffix "cd-12-exec" = "cd"
  ∧ removeSuffix "-exec" = "x".
Proof. repeat split; reflexivity. Qed.

Example pathTemp_samples :
  pathTemp 4242 "/store/ab/cd1234-exec" = "/store/ab/cd1234x4242"
  ∧ pathTemp 4242 "/store/ab/cd1234" = "/store/ab/cd12344242"
  ∧ pathTemp 0 "cd1234" = "cd12340".
Proof. repeat split; reflexivity. Qed.

(** A first write, alone: [fs.stat] fails, the temporary file is written at
    time 1004, renamed at 1009; the caller gets 1004. *)
Example first_write :
  let s := run plainCheck 4242 (init 1000 ∅)
             [Call "/store" helloBytes "ab/cd1234" (Some 420%N) helloIntegrity;
              Resume 0 None; Tick 4; Resume 0 None; Tick 5; Resume 0 None] in
  outcome s 1 = Some (Fulfilled 1004)
  ∧ disk s = {[ "/store/ab/cd1234" := helloFile ]}
  ∧ trace s =
      [("/store/ab/cd1234", EAwait (Stat "/store/ab/cd1234"));
       ("/store/ab/cd1234",
        EAwait (WriteFile "/store/ab/cd12344242" helloBytes (Some 420%N)));
       ("/store/ab/cd1234", ESync DateNow);
       ("/store/ab/cd1234",
        EAwait (RenameOverwrite "/store/ab/cd12344242" "/store/ab/cd1234"))].
Proof. repeat split; reflexivity. Qed.

(** The file at the destination is damaged: the check fails and the buffer
    is written again. *)
Example damaged_file_is_rewritten :
  let damaged := {| content := list_byte_of_string "hellp"; fmode := Some 420%N |} in
  let s := run plainCheck 4242 (init 1000 {[ "/store/ab/cd1234" := damaged ]})
             [Call "/store" helloBytes "ab/cd1234" (Some 420%N) helloIntegrity;
              Resume 0 None; Resume 0 None; Tick 4; Resume 0 None; Resume 0 None] in
  outcome s 1 = Some (Fulfilled 1004)
  ∧ disk s !! "/store/ab/cd1234" = Some helloFile
  ∧ writesFor "/store/ab/cd1234" (trace s) = 1%nat.
Proof. repeat split; reflexivity. Qed.

(** The rename fails for want of permission: the caller gets the error and
    the destination stays absent. *)
Example commit_failure :
  let s := run plainCheck 4242 (init 1000 ∅)
             [Call "/store" helloBytes "ab/cd1234" None helloIntegrity;
              Resume 0 None; Resume 0 None; Resume 0 (Some eacces)] in
  outcome s 1 = Some (Rejected eacces)
  ∧ disk s !! "/store/ab/cd1234" = None.
Proof. repeat split; reflexivity. Qed.

(** A second caller, calling at time 2000, is given the time of the write,
    which is before its call. *)
Example joiner_gets_the_earlier_time :
  let s := run plainCheck 4242 (init 1000 ∅)
             [Call "/store" helloBytes "ab/cd1234" None helloIntegrity;
              Resume 0 None; Tick 4; Resume 0 None; Resume 0 None; Tick 996] in
  let cs := writeBufferToCafs 4242 "/store" helloBytes "ab/cd1234" None helloIntegrity s in
  now s = 2000%N ∧ outcome cs.2 cs.1 = Some (Fulfilled 1004).
Proof. repeat split; reflexivity. Qed.

(** [pnpm link ../lib foo bar], [foo] being a package of the workspace. *)
Example link_targets :
  Link.linkTargets ["../lib"; "foo"; "bar"]
    (Some [ {| Link.name := "foo"; Link.path := "/ws/packages/foo" |};
            {| Link.name := "baz"; Link.path := "/ws/packages/baz" |} ])
    "/usr/local"
    {| Link.saveDev := false; Link.saveProd := false; Link.saveOptional := false |}
  = (["../lib"; "/ws/packages/foo"; "/usr/local/node_modules/bar"],
     {| Link.saveDev := false; Link.saveProd := true; Link.saveOptional := false |}).
Proof. reflexivity. Qed.
